(** * albumArtister: a verified model of [src/albumArtister.py]

    The program walks a directory tree, loads every entry whose suffix is
    [".mp3"] through the [music_tag] library and copies the [artist] tag into
    the [album_artist] tag of every song that lacks one.

    The development is laid out as the program is:
    - [Exceptions]: Python exceptions and the outcome of a call;
    - [Pathlib]: the part of [pathlib.Path] the program uses;
    - [FileSystem]: the directory tree the program runs against and the
      [os] / [pathlib] queries on it;
    - [Runtime]: standard output, the state of a run and its monad;
    - [MusicTag]: the interface of the external [music_tag] library;
    - [AlbumArtister]: the functions of the source file, one definition each
      ([is_album_artist], which nothing calls, is left out);
    - the properties of those functions, and last the claims of the
      specification, C1 to C10. *)

From Stdlib Require Import String Ascii.
From stdpp Require Import base option list strings pretty gmap.

#[local] Set Warnings "-register-all".

#[local] Open Scope string_scope.
#[local] Open Scope list_scope.
#[local] Open Scope nat_scope.
#[local] Open Scope stdpp_scope.

(** ** Python exceptions *)

Module Exceptions.

(** The exception classes that occur in a run.  All of them derive from
    [Exception]; [OtherException] stands for every class the program does
    not name. *)
Inductive ExnClass :=
| UnboundLocalError
| NotImplementedError
| PermissionError
| FileNotFoundError
| NotADirectoryError
| IsADirectoryError
| TypeError
| RecursionError
| OtherException.

(** An exception instance: its class and [str(e)]. *)
Record Exn := mkExn { exn_class : ExnClass; exn_msg : string }.

(** A call either returns a value or raises. *)
Inductive outcome (A : Type) :=
| Returned (a : A)
| Raised (e : Exn).
Arguments Returned {A} a.
Arguments Raised {A} e.

Definition outcome_bind {A B} (m : outcome A) (k : A → outcome B) : outcome B :=
  match m with
  | Returned a => k a
  | Raised e => Raised e
  end.

Definition outcome_map {A B} (g : A → B) (m : outcome A) : outcome B :=
  outcome_bind m (λ a, Returned (g a)).

Definition no_such_file : Exn :=
  mkExn FileNotFoundError "[Errno 2] No such file or directory".
Definition not_a_directory : Exn :=
  mkExn NotADirectoryError "[Errno 20] Not a directory".
Definition is_a_directory : Exn :=
  mkExn IsADirectoryError "[Errno 21] Is a directory".
Definition permission_denied : Exn :=
  mkExn PermissionError "[Errno 13] Permission denied".
Definition none_not_callable : Exn :=
  mkExn TypeError "'NoneType' object is not callable".
Definition none_not_iterable : Exn :=
  mkExn TypeError "argument of type 'NoneType' is not iterable".
Definition recursion_limit : Exn :=
  mkExn RecursionError "maximum recursion depth exceeded".

End Exceptions.
Export Exceptions.

(** ** pathlib *)

Module Pathlib.

(** A (POSIX) [Path]: whether it starts at the root, and its components. *)
Record Path := mkPath { anchored : bool; parts : list string }.

#[global] Instance Path_eq_dec : EqDecision Path.
Proof. solve_decision. Defined.

Definition absolute (ps : list string) : Path := mkPath true ps.
Definition relative (ps : list string) : Path := mkPath false ps.

(** [a.joinpath(b)]: an absolute [b] replaces [a], a relative one is
    appended to it. *)
Definition joinpath (a b : Path) : Path :=
  if anchored b then b else mkPath (anchored a) (parts a ++ parts b).

(** [a.joinpath(name)] for a string holding one component, as the names
    [os.listdir] returns are. *)
Definition joinname (a : Path) (name : string) : Path :=
  joinpath a (relative [name]).

(** The path [rest] further down from [d]. *)
Definition below (d : Path) (rest : list string) : Path :=
  mkPath (anchored d) (parts d ++ rest).

(** [p.name]: the last component, [''] when there is none. *)
Definition name (p : Path) : string := List.last (parts p) "".

(** [s.rfind('.')]; [None] stands for [-1]. *)
Fixpoint rfind_dot (s : string) : option nat :=
  match s with
  | EmptyString => None
  | String c s' =>
      match rfind_dot s' with
      | Some i => Some (S i)
      | None => if Ascii.eqb c "." then Some 0 else None
      end
  end.

(** [p.suffix]:
    [i = name.rfind('.'); name[i:] if 0 < i < len(name) - 1 else ''] *)
Definition suffix (p : Path) : string :=
  let nm := name p in
  match rfind_dot nm with
  | Some i =>
      if (0 <? i) && (i <? String.length nm - 1)
      then String.substring i (String.length nm - i) nm
      else ""
  | None => ""
  end.

(** [str(p)] *)
Definition path_str (p : Path) : string :=
  match anchored p, parts p with
  | true, ps => String.append "/" (String.concat "/" ps)
  | false, [] => "."
  | false, ps => String.concat "/" ps
  end.

End Pathlib.
Export Pathlib.

(** ** The file system *)

Module FileSystem.

(** What a regular file holds, as the tag library sees it: an audio
    container with its tag map (and whether it may be written), or
    anything else, for which loading raises the given exception. *)
Inductive FileData :=
| Audio (tags : gmap string string) (writable : bool)
| Unloadable (e : Exn).

(** A tree of regular files and directories; every directory can be
    listed, and there are no links. *)
Inductive node :=
| File (d : FileData)
| Dir (entries : list (string * node)).

(** The process' view: the tree under ["/"] and the working directory. *)
Record World := mkWorld { fs_root : node; cwd : list string }.

Fixpoint assoc (x : string) (es : list (string * node)) : option node :=
  match es with
  | [] => None
  | (y, c) :: es' => if String.eqb x y then Some c else assoc x es'
  end.

Fixpoint lookup_path (n : node) (ps : list string) : option node :=
  match ps with
  | [] => Some n
  | x :: ps' =>
      match n with
      | Dir es =>
          match assoc x es with
          | Some c => lookup_path c ps'
          | None => None
          end
      | File _ => None
      end
  end.

(** What there is at a path: a regular file and its contents, or a
    directory and the names in it (in the order [os.listdir] gives them). *)
Inductive kind :=
| KFile (d : FileData)
| KDir (names : list string).

Definition stat (n : node) : kind :=
  match n with
  | File d => KFile d
  | Dir es => KDir (map fst es)
  end.

(** The components from ["/"] down to [p].  They are looked up as names of
    entries: a path that holds [..] is not resolved to the parent, so the
    statements below that look such a path up are about trees without it. *)
Definition location (w : World) (p : Path) : list string :=
  if anchored p then parts p else cwd w ++ parts p.

Definition stat_at (w : World) (p : Path) : option kind :=
  stat <$> lookup_path (fs_root w) (location w p).

(** The lookup of a path runs into a regular file with components still to
    go. *)
Fixpoint through_file (n : node) (ps : list string) : bool :=
  match ps with
  | [] => false
  | x :: ps' =>
      match n with
      | File _ => true
      | Dir es =>
          match assoc x es with
          | Some c => through_file c ps'
          | None => false
          end
      end
  end.

(** [os.listdir(p)]: the names in a directory; [NotADirectoryError] when
    [p] is a regular file or runs through one, [FileNotFoundError] when a
    component of [p] does not exist. *)
Definition listdir (w : World) (p : Path) : outcome (list string) :=
  match stat_at w p with
  | Some (KDir names) => Returned names
  | Some (KFile _) => Raised not_a_directory
  | None =>
      if through_file (fs_root w) (location w p) then Raised not_a_directory
      else Raised no_such_file
  end.

(** [p.is_dir()]: [False] also when [p] does not exist. *)
Definition is_dir (w : World) (p : Path) : bool :=
  match stat_at w p with
  | Some (KDir _) => true
  | _ => false
  end.

(** Replacing the contents of the regular file at a location; anything
    else is left as it is. *)
Fixpoint replace_first (x : string) (g : node → node)
    (es : list (string * node)) : list (string * node) :=
  match es with
  | [] => []
  | (y, c) :: es' =>
      if String.eqb x y then (y, g c) :: es'
      else (y, c) :: replace_first x g es'
  end.

Fixpoint write_path (n : node) (ps : list string) (d : FileData) : node :=
  match ps with
  | [] => match n with File _ => File d | Dir _ => n end
  | x :: ps' =>
      match n with
      | Dir es => Dir (replace_first x (λ c, write_path c ps' d) es)
      | File _ => n
      end
  end.

Definition write_file (w : World) (p : Path) (d : FileData) : World :=
  mkWorld (write_path (fs_root w) (location w p) d) (cwd w).

(** The number of directory levels of a tree. *)
Fixpoint height (n : node) : nat :=
  match n with
  | File _ => 0
  | Dir es =>
      S ((fix deepest (l : list (string * node)) : nat :=
            match l with
            | [] => 0
            | (_, c) :: l' => Nat.max (height c) (deepest l')
            end) es)
  end.

(** The same, for the entries of a directory. *)
Fixpoint deepest (l : list (string * node)) : nat :=
  match l with
  | [] => 0
  | (_, c) :: l' => Nat.max (height c) (deepest l')
  end.

Definition is_file (o : option node) : Prop :=
  match o with Some (File _) => True | _ => False end.

End FileSystem.
Export FileSystem.

(** ** The run-time state and the monad the program runs in *)

Module Runtime.

(** One line on standard output; [render] gives its text. *)
Inductive Line :=
| NotMusicFile (path : Path)
| PermissionDenied (path : Path)
| SomethingWentWrong (e : Exn) (path : Path)
| FinishedScanning (n : nat)
| FixedMissingTag (title : string)
| FinishedFixing (n : nat).

Definition render (l : Line) : string :=
  match l with
  | NotMusicFile path =>
      String.append "File is not a music file: " (path_str path)
  | PermissionDenied path =>
      String.append "Permission error: " (path_str path)
  | SomethingWentWrong e path =>
      String.concat "" ["Something went wrong: "; exn_msg e; " Path: "; path_str path]
  | FinishedScanning n =>
      String.concat "" ["Finished scanning all files ("; pretty n; " songs found)"]
  | FixedMissingTag title =>
      String.append "Fixed missing tag in song: " title
  | FinishedFixing n =>
      String.concat "" ["Finished fixing all songs ("; pretty n; " songs fixed)"]
  end.

(** The files on disk and what has been printed so far. *)
Record State := mkState { world : World; stdout : list Line }.

(** A computation changes the state and returns or raises; what it did to
    the state before raising stays done. *)
Definition M (A : Type) : Type := State → outcome A * State.

#[global] Instance M_ret : MRet M := λ A a st, (Returned a, st).
#[global] Instance M_bind : MBind M := λ A B k m st,
  match m st with
  | (Returned a, st') => k a st'
  | (Raised e, st') => (Raised e, st')
  end.

Definition raise {A} (e : Exn) : M A := λ st, (Raised e, st).
Definition lift {A} (r : outcome A) : M A := λ st, (r, st).
Definition get_world : M World := λ st, (Returned (world st), st).
Definition put_world (w : World) : M unit :=
  λ st, (Returned tt, mkState w (stdout st)).
Definition print (l : Line) : M unit :=
  λ st, (Returned tt, mkState (world st) (stdout st ++ [l])).

End Runtime.
Export Runtime.

(** ** The music_tag library

    [music_tag] is imported by the program and is not among its sources.
    The program uses five of its operations: [load_file], [key in f],
    [f[key]], [f[key] = value] and [f.save()]; the specification (section 6)
    names them [load], [has], [get], [set] and [save]. *)

Module MusicTag.

(** Modelled from the spec: [music_tag.AudioFile], the song handle, by what
    the five operations let the program see of it: the path it was loaded
    from and its tag map.  Every call of [load_file] makes an object of its
    own. *)
Record AudioFile := mkAudioFile { filename : Path; tags : gmap string string }.

(** Modelled from the spec: [music_tag.load_file(path)], "load(path) ->
    Handle | Error": the handle of an audio file, and for anything else the
    exception that tells why it cannot be loaded. *)
Definition load_file (w : World) (path : Path) : outcome AudioFile :=
  match stat_at w path with
  | Some (KFile (Audio t _)) => Returned (mkAudioFile path t)
  | Some (KFile (Unloadable e)) => Raised e
  | Some (KDir _) => Raised is_a_directory
  | None => Raised no_such_file
  end.

(** Modelled from the spec: [key in f], "handle.has(fieldName) -> bool", a
    presence check independent of the value: the key exists in the tag map. *)
Definition contains (key : string) (f : AudioFile) : bool :=
  bool_decide (is_Some (tags f !! key)).

(** Modelled from the spec: [f[key]], "handle.get(fieldName) -> value"; an
    absent tag reads as the empty value.  The spec takes the artist as
    present; what the library writes to the file for an album artist copied
    from an absent artist is not in it, and the statements below about what
    a fixed file holds are about songs that have an artist. *)
Definition getitem (f : AudioFile) (key : string) : string :=
  default "" (tags f !! key).

(** Modelled from the spec: [f[key] = value], "handle.set(fieldName,
    value)". *)
Definition setitem (f : AudioFile) (key value : string) : AudioFile :=
  mkAudioFile (filename f) (<[key := value]> (tags f)).

(** Modelled from the spec: [f.save()], "handle.save() -> Error?": persists
    the tag map of the handle into the file it was loaded from, and raises
    when that file cannot be written. *)
Definition save (f : AudioFile) : M unit :=
  w ← get_world;
  match stat_at w (filename f) with
  | Some (KFile (Audio _ true)) =>
      put_world (write_file w (filename f) (Audio (tags f) true))
  | Some (KFile (Audio _ false)) => raise permission_denied
  | Some (KFile (Unloadable e)) => raise e
  | Some (KDir _) => raise is_a_directory
  | None => raise no_such_file
  end.

End MusicTag.
Export MusicTag.

(** ** The program *)

Module AlbumArtister.

Definition ARTIST : string := "artist".
Definition ALBUM_ARTIST : string := "album_artist".
Definition TITLE : string := "title".
Definition MP3 : string := ".mp3".

(** [set_album_artist(song)]; the result is the object after the call. *)
Definition set_album_artist (song : AudioFile) : M AudioFile :=
  let artist := getitem song ARTIST in
  let song := setitem song ALBUM_ARTIST artist in
  save song;;
  mret song.

(** One pass of the loop of [fix_album_artist_tag] over an element of
    [songs], which is an [AudioFile] or [None]; [ALBUM_ARTIST not in None]
    raises [TypeError]. *)
Definition fix_song (song : option AudioFile) (fixed_songs : nat)
    : M (option AudioFile * nat) :=
  match song with
  | None => raise none_not_iterable
  | Some f =>
      if negb (contains ALBUM_ARTIST f) then
        f ← set_album_artist f;
        let fixed_songs := S fixed_songs in
        print (FixedMissingTag (getitem f TITLE));;
        mret (Some f, fixed_songs)
      else mret (Some f, fixed_songs)
  end.

(** The loop [for song in songs], with the objects as the passes leave
    them. *)
Fixpoint fix_loop (songs : list (option AudioFile)) (fixed_songs : nat)
    : M (list (option AudioFile) * nat) :=
  match songs with
  | [] => mret ([], fixed_songs)
  | song :: rest =>
      '(song, fixed_songs) ← fix_song song fixed_songs;
      '(rest, fixed_songs) ← fix_loop rest fixed_songs;
      mret (song :: rest, fixed_songs)
  end.

(** [fix_album_artist_tag(songs)]; the result is the list of objects after
    the call (Python returns [None] and leaves them changed in place). *)
Definition fix_album_artist_tag (songs : list (option AudioFile))
    : M (list (option AudioFile)) :=
  let fixed_songs := 0 in
  '(songs, fixed_songs) ← fix_loop songs fixed_songs;
  print (FinishedFixing fixed_songs);;
  mret songs.

(** [load_song(path)]; [None] is what falling off the end returns. *)
Definition load_song (path : Path) : M (option AudioFile) :=
  w ← get_world;
  match load_file w path with
  | Raised e =>
      match exn_class e with
      | UnboundLocalError => print (NotMusicFile path);; mret None
      | NotImplementedError => print (NotMusicFile path);; mret None
      | PermissionError => print (PermissionDenied path);; mret None
      | _ => print (SomethingWentWrong e path);; mret None
      end
  | Returned song => mret (Some song)
  end.

(** The loop [for file_path in files], from the [songs] gathered so far. *)
Fixpoint load_loop (files : list Path) (songs : list (option AudioFile))
    : M (list (option AudioFile)) :=
  match files with
  | [] => mret songs
  | file_path :: rest =>
      song ← load_song file_path;
      load_loop rest (songs ++ [song])
  end.

(** [load_all_songs(files)] *)
Definition load_all_songs (files : list Path) : M (list (option AudioFile)) :=
  load_loop files [].

(** The first comprehension of [get_all_files]:
    [[dir_path.joinpath(file) for file in names
      if file_filter(dir_path.joinpath(file))]];
    calling a [file_filter] that is [None] raises [TypeError]. *)
Fixpoint matching (file_filter : option (Path → bool)) (dir_path : Path)
    (names : list string) : outcome (list Path) :=
  match names with
  | [] => Returned []
  | file :: rest =>
      match file_filter with
      | None => Raised none_not_callable
      | Some f =>
          let keep := f (joinname dir_path file) in
          outcome_bind (matching file_filter dir_path rest) (λ found,
            Returned (if keep then joinname dir_path file :: found else found))
      end
  end.

(** The second comprehension:
    [[dir_path.joinpath(file) for file in names
      if dir_path.joinpath(file).is_dir()]] *)
Definition sub_directories (w : World) (dir_path : Path)
    (names : list string) : list Path :=
  joinname dir_path <$> filter (λ file, is_dir w (joinname dir_path file) = true) names.

(** The loop [for sub_dir in sub_dirs: files.extend(get_all_files(...))],
    over whatever the recursive call is. *)
Fixpoint extend_all (recur : Path → option (outcome (list Path)))
    (dir_path : Path) (sub_dirs : list Path) (files : list Path)
    : option (outcome (list Path)) :=
  match sub_dirs with
  | [] => Some (Returned files)
  | sub_dir :: rest =>
      let full_path := joinpath dir_path sub_dir in
      match recur full_path with
      | None => None
      | Some (Raised e) => Some (Raised e)
      | Some (Returned found) => extend_all recur dir_path rest (files ++ found)
      end
  end.

(** [get_all_files] with a bound on the depth of the recursion; [None]
    when the bound is reached. *)
Fixpoint get_all_files_rec (depth : nat) (w : World) (dir_path : Path)
    (file_filter : option (Path → bool)) : option (outcome (list Path)) :=
  match depth with
  | 0 => None
  | S depth =>
      match listdir w dir_path with
      | Raised e => Some (Raised e)
      | Returned names =>
          match matching file_filter dir_path names with
          | Raised e => Some (Raised e)
          | Returned files =>
              match listdir w dir_path with
              | Raised e => Some (Raised e)
              | Returned names =>
                  let sub_dirs := sub_directories w dir_path names in
                  extend_all (λ full_path, get_all_files_rec depth w full_path file_filter)
                    dir_path sub_dirs files
              end
          end
      end
  end.

(** [get_all_files(dir_path, file_filter)].  The recursion never goes
    deeper than the tree is high ([get_all_files_rec_enough] below), so
    the last case does not occur: the limit the interpreter puts on the
    depth of the recursion is left out, and the statements below hold of
    trees it does not reach. *)
Definition get_all_files (w : World) (dir_path : Path)
    (file_filter : option (Path → bool)) : outcome (list Path) :=
  match get_all_files_rec (S (height (fs_root w))) w dir_path file_filter with
  | Some r => r
  | None => Raised recursion_limit
  end.

(** The same loop once the recursive calls are known to return or raise;
    [get_all_files_unfold] below states [get_all_files] with it, as the
    source reads. *)
Fixpoint extend_files (recur : Path → outcome (list Path))
    (dir_path : Path) (sub_dirs : list Path) (files : list Path)
    : outcome (list Path) :=
  match sub_dirs with
  | [] => Returned files
  | sub_dir :: rest =>
      let full_path := joinpath dir_path sub_dir in
      outcome_bind (recur full_path) (λ found,
        extend_files recur dir_path rest (files ++ found))
  end.

(** [lambda file_path: file_path.suffix == MP3] *)
Definition mp3_filter : Path → bool :=
  λ file_path, String.eqb (suffix file_path) MP3.

(** [main()], from the parsed argument [Path(args.file_path)] on. *)
Definition main (dir_path : Path) : M unit :=
  w ← get_world;
  files ← lift (get_all_files w dir_path (Some mp3_filter));
  songs ← load_all_songs files;
  print (FinishedScanning (length songs));;
  fix_album_artist_tag songs;;
  mret tt.

End AlbumArtister.
Export AlbumArtister.

(** * Observations used in the statements *)

(** What [load_song] prints when [load_file] raises [e], by the [except]
    clause that catches it. *)
Definition except_line (e : Exn) (path : Path) : Line :=
  match exn_class e with
  | UnboundLocalError | NotImplementedError => NotMusicFile path
  | PermissionError => PermissionDenied path
  | _ => SomethingWentWrong e path
  end.

(** What [load_song] returns for a path in a world. *)
Definition loaded (w : World) (path : Path) : option AudioFile :=
  match load_file w path with
  | Returned song => Some song
  | Raised _ => None
  end.

(** What loading a list of paths prints. *)
Definition load_lines (w : World) (files : list Path) : list Line :=
  files ≫= λ path,
    match load_file w path with
    | Returned _ => []
    | Raised e => [except_line e path]
    end.

(** No directory lists a name twice. *)
Definition unique_names (w : World) : Prop :=
  ∀ q names, listdir w q = Returned names → NoDup names.

(** The object [set_album_artist] leaves behind. *)
Definition fixed (song : AudioFile) : AudioFile :=
  setitem song ALBUM_ARTIST (getitem song ARTIST).

(** The file at a path is an audio file that carries an album artist. *)
Definition settled (w : World) (path : Path) : Prop :=
  ∃ t wr, stat_at w path = Some (KFile (Audio t wr)) ∧ is_Some (t !! ALBUM_ARTIST).

(** What a run of the fixer can do to the files: directories, other files
    and write permissions stay, and an audio file keeps its tags or ends up
    with an album artist. *)
Definition evolves (w w' : World) : Prop :=
  cwd w' = cwd w ∧
  ∀ q, match stat_at w q with
       | Some (KFile (Audio t wr)) =>
           ∃ t', stat_at w' q = Some (KFile (Audio t' wr))
                 ∧ (t' = t ∨ is_Some (t' !! ALBUM_ARTIST))
       | o => stat_at w' q = o
       end.

(** Every directory of a tree lists each of its names once. *)
Fixpoint unique_tree (n : node) : bool :=
  match n with
  | File _ => true
  | Dir es =>
      bool_decide (NoDup (map fst es))
      && (fix all (l : list (string * node)) : bool :=
            match l with
            | [] => true
            | (_, c) :: l' => unique_tree c && all l'
            end) es
  end.

(** The same, for the entries of a directory. *)
Fixpoint unique_entries (l : list (string * node)) : bool :=
  match l with
  | [] => true
  | (_, c) :: l' => unique_tree c && unique_entries l'
  end.

(** The tag map the fixer leaves for a tag map: the same when it has an
    album artist, and with the artist as album artist when not. *)
Definition fix_tags (t : gmap string string) : gmap string string :=
  if bool_decide (is_Some (t !! ALBUM_ARTIST)) then t
  else <[ALBUM_ARTIST := default "" (t !! ARTIST)]> t.

(** What the fixer leaves at a path of the world [w]: an audio file with its
    tag map fixed, anything else as it is. *)
Definition fixed_at (w : World) (q : Path) : option kind :=
  match stat_at w q with
  | Some (KFile (Audio t wr)) => Some (KFile (Audio (fix_tags t) wr))
  | o => o
  end.

(** The element of [songs] is a song without an album artist. *)
Definition needs_fix (song : option AudioFile) : bool :=
  match song with
  | Some f => negb (contains ALBUM_ARTIST f)
  | None => false
  end.

(** The lines the fixer prints for the songs it fixes. *)
Definition fixed_lines (songs : list (option AudioFile)) : list Line :=
  songs ≫= λ song,
    match song with
    | Some f =>
        if contains ALBUM_ARTIST f then []
        else [FixedMissingTag (getitem (fixed f) TITLE)]
    | None => []
    end.

(** The object the fixer leaves for a song. *)
Definition fix_object (f : AudioFile) : AudioFile :=
  mkAudioFile (filename f) (fix_tags (tags f)).

(** What a run of the fixer over [songs] may have done to the files between
    [w] and [w']: at a path there is what there was, or it is the file of a
    song without album artist, which was a writable audio file and now holds
    the tags of that song with the album artist set. *)
Definition writes_only (songs : list (option AudioFile)) (w w' : World) : Prop :=
  cwd w' = cwd w ∧
  ∀ q, stat_at w' q = stat_at w q
       ∨ ∃ f t, Some f ∈ songs ∧ contains ALBUM_ARTIST f = false
                ∧ location w q = location w (filename f)
                ∧ stat_at w q = Some (KFile (Audio t true))
                ∧ stat_at w' q = Some (KFile (Audio (tags (fixed f)) true)).

(** Every audio file among [files] that has no album artist has an artist
    to copy. *)
Definition artists_known (w : World) (files : list Path) : Prop :=
  ∀ p t wr, p ∈ files → stat_at w p = Some (KFile (Audio t wr)) →
    t !! ALBUM_ARTIST = None → is_Some (t !! ARTIST).

(** * Sample directories *)

Module Samples.

(** A song by Bob without an album artist, and one with. *)
Definition untagged : gmap string string :=
  {[ "artist" := "Bob"; "title" := "A" ]}.
Definition tagged : gmap string string :=
  {[ "artist" := "Bob"; "album_artist" := "Bob"; "title" := "B" ]}.

(** [/music] holding [a.mp3] (no album artist) and [b.mp3] (with one). *)
Definition shelf : World :=
  mkWorld
    (Dir [("music", Dir [("a.mp3", File (Audio untagged true));
                         ("b.mp3", File (Audio tagged true))])])
    [].

(** [/music/sub/a.mp3]: a song one directory down. *)
Definition nested : World :=
  mkWorld
    (Dir [("music", Dir [("sub", Dir [("a.mp3", File (Audio untagged true))])])])
    [].

(** [/music/live.mp3/]: a directory whose name ends in [.mp3]. *)
Definition live_album : World :=
  mkWorld (Dir [("music", Dir [("live.mp3", Dir [])])]) [].

(** [/music] holding [notes.mp3], which is no audio file, and [a.mp3]. *)
Definition not_audio : Exn :=
  mkExn NotImplementedError "Mutagen type NoneType not implemented".
Definition mislabelled : World :=
  mkWorld
    (Dir [("music", Dir [("notes.mp3", File (Unloadable not_audio));
                         ("a.mp3", File (Audio untagged true))])])
    [].

Definition music : Path := absolute ["music"].

(** A song by Bob on an album credited to somebody else. *)
Definition compiled : gmap string string :=
  {[ "artist" := "Bob"; "album_artist" := "Various"; "title" := "C" ]}.



(** The working directory holds [music], in which [music] is a regular file
    and [sub] a directory. *)
Definition blocked : World :=
  mkWorld
    (Dir [("music", Dir [("music", File (Audio untagged true));
                         ("sub", Dir [])])])
    [].

(** [/music] holding [a.mp3] that may not be written, and [c.mp3]. *)
Definition read_only : World :=
  mkWorld
    (Dir [("music", Dir [("a.mp3", File (Audio untagged false));
                         ("c.mp3", File (Audio untagged true))])])
    [].

End Samples.
Export Samples.

(** * Properties *)

(** ** The directory tree *)

Section Tree.

Lemma height_Dir es : height (Dir es) = S (deepest es).
Proof. reflexivity. Qed.

Lemma assoc_height x es c : assoc x es = Some c → height c ≤ deepest es.
Proof.
  induction es as [|[y c'] es IH]; simpl; [done|].
  destruct (String.eqb x y); intros H.
  - injection H as ->. lia.
  - specialize (IH H). lia.
Qed.

(** A directory lies strictly above the height of the tree. *)
Lemma lookup_dir_height n ps es :
  lookup_path n ps = Some (Dir es) → length ps < height n.
Proof.
  revert n. induction ps as [|x ps IH]; intros n; simpl.
  - intros [= ->]. rewrite height_Dir. lia.
  - destruct n as [d|es0]; [done|].
    destruct (assoc x es0) as [c|] eqn:Hc; [|done].
    intros H. apply IH in H. apply assoc_height in Hc.
    rewrite height_Dir. lia.
Qed.

Lemma assoc_Some_names x es c : assoc x es = Some c → x ∈ map fst es.
Proof.
  induction es as [|[y c'] es IH]; simpl; [done|].
  destruct (String.eqb_spec x y) as [->|Hne]; intros H.
  - left.
  - right. auto.
Qed.

Lemma assoc_names_Some x es : x ∈ map fst es → is_Some (assoc x es).
Proof.
  induction es as [|[y c'] es IH]; simpl.
  - by intros ?%elem_of_nil.
  - destruct (String.eqb_spec x y) as [->|Hne]; [eauto|].
    intros [?|?]%elem_of_cons; [done|auto].
Qed.

Lemma lookup_path_app n ps qs :
  lookup_path n (ps ++ qs) = lookup_path n ps ≫= λ c, lookup_path c qs.
Proof.
  revert n. induction ps as [|x ps IH]; intros n; simpl; [done|].
  destruct n as [d|es]; [done|].
  destruct (assoc x es); [apply IH|done].
Qed.

Lemma replace_first_names x g es :
  map fst (replace_first x g es) = map fst es.
Proof.
  induction es as [|[y c] es IH]; simpl; [done|].
  destruct (String.eqb x y); simpl; [done|]. by rewrite IH.
Qed.

Lemma assoc_replace_first y x g es :
  assoc y (replace_first x g es)
  = if decide (y = x) then g <$> assoc x es else assoc y es.
Proof.
  induction es as [|[z c] es IH]; simpl.
  - by case_decide.
  - destruct (String.eqb_spec x z) as [->|Hxz]; simpl.
    + destruct (String.eqb_spec y z) as [->|Hyz].
      * rewrite decide_True by done. done.
      * rewrite decide_False by done. done.
    + destruct (String.eqb_spec y z) as [->|Hyz].
      * rewrite decide_False by done. done.
      * rewrite IH. by case_decide.
Qed.

(** Writing the file at [ps] changes what [stat] tells at [ps] and
    nowhere else. *)
Lemma stat_write_path n ps d qs :
  is_file (lookup_path n ps) →
  stat <$> lookup_path (write_path n ps d) qs
  = if decide (qs = ps) then Some (KFile d) else stat <$> lookup_path n qs.
Proof.
  revert n qs. induction ps as [|x ps IH]; intros n qs; simpl.
  - destruct n as [d0|es]; [|done]. intros _.
    destruct qs as [|y qs]; simpl; [done|]. try case_decide; done.
  - destruct n as [d0|es]; [done|].
    destruct (assoc x es) as [c|] eqn:Hc; [|done]. intros Hf.
    destruct qs as [|y qs]; simpl.
    + try case_decide; try done. by rewrite replace_first_names.
    + rewrite assoc_replace_first. destruct (decide (y = x)) as [->|Hyx].
      * rewrite Hc. simpl. rewrite IH by done.
        destruct (decide (qs = ps)) as [->|Hne].
        -- by rewrite decide_True.
        -- rewrite decide_False by congruence. done.
      * rewrite decide_False by congruence. done.
Qed.

(** Running through a regular file, told by the prefixes of the path. *)
Lemma through_file_prefix n ps :
  through_file n ps = true
  ↔ ∃ k, k < length ps ∧ is_file (lookup_path n (take k ps)).
Proof.
  revert n. induction ps as [|x ps IH]; intros n; simpl.
  - split; [done|]. intros (k & ? & _). lia.
  - destruct n as [d|es].
    + split; [|done]. intros _. exists 0. split; [lia|done].
    + destruct (assoc x es) as [c|] eqn:Hc.
      * rewrite IH. split.
        -- intros (k & Hk & Hf). exists (S k). split; [lia|]. simpl. by rewrite Hc.
        -- intros ([|k] & Hk & Hf); simpl in Hf; [done|].
           rewrite Hc in Hf. exists k. split; [lia|done].
      * split; [done|]. intros ([|k] & Hk & Hf); simpl in Hf; [done|].
        by rewrite Hc in Hf.
Qed.

Lemma through_file_same n n' ps :
  (∀ l, is_file (lookup_path n' l) ↔ is_file (lookup_path n l)) →
  through_file n' ps = through_file n ps.
Proof.
  intros Hsame. apply eq_true_iff_eq. rewrite !through_file_prefix.
  split; intros (k & Hk & Hf); exists k; (split; [done|]); by apply Hsame.
Qed.

End Tree.

(** ** Worlds with the same directories *)

Section SameKinds.

Lemma is_file_stat_at w l :
  is_file (lookup_path (fs_root w) l) ↔ ∃ d, stat_at w (absolute l) = Some (KFile d).
Proof.
  unfold stat_at, is_file. change (location w (absolute l)) with l.
  destruct (lookup_path (fs_root w) l) as [[d|es]|]; simpl.
  - split; eauto.
  - split; [done|]. by intros (d & Hd).
  - split; [done|]. by intros (d & Hd).
Qed.

(** Between two worlds in which a path holds the same thing, or a regular
    file in both, [os.listdir] gives the same. *)
Lemma listdir_same_kinds w w' :
  cwd w' = cwd w →
  (∀ q, stat_at w' q = stat_at w q
        ∨ ∃ d d', stat_at w q = Some (KFile d) ∧ stat_at w' q = Some (KFile d')) →
  ∀ q, listdir w' q = listdir w q.
Proof.
  intros Hcwd Hsame q. unfold listdir.
  assert (through_file (fs_root w') (location w' q)
          = through_file (fs_root w) (location w q)) as ->.
  { unfold location. rewrite Hcwd. apply through_file_same. intros l.
    rewrite !is_file_stat_at.
    destruct (Hsame (absolute l)) as [->|(d & d' & -> & ->)]; [done|].
    split; eauto. }
  destruct (Hsame q) as [->|(d & d' & -> & ->)]; done.
Qed.

End SameKinds.

(** ** The file discoverer: the recursion is well defined *)

Section Recursion.

Context (w : World) (file_filter : option (Path → bool)).

Lemma listdir_Returned p names :
  listdir w p = Returned names →
  ∃ es, lookup_path (fs_root w) (location w p) = Some (Dir es)
        ∧ names = map fst es.
Proof.
  unfold listdir, stat_at.
  destruct (lookup_path (fs_root w) (location w p)) as [[d|es]|]; simpl; try done.
  - intros [= <-]. eauto.
  - by destruct (through_file _ _).
Qed.

Lemma listdir_height p names :
  listdir w p = Returned names → length (location w p) < height (fs_root w).
Proof.
  intros (es & Hes & _)%listdir_Returned. by eapply lookup_dir_height.
Qed.

(** The path the recursive call is made on lies deeper than [dir_path],
    whether [dir_path] is absolute or not. *)
Lemma location_descend dir_path file :
  length (location w dir_path)
  < length (location w (joinpath dir_path (joinname dir_path file))).
Proof.
  destruct dir_path as [[] ps]; unfold location, joinname, joinpath; simpl;
    rewrite ?length_app; simpl; lia.
Qed.

Lemma elem_of_sub_directories dir_path names sub_dir :
  sub_dir ∈ sub_directories w dir_path names ↔
  ∃ file, sub_dir = joinname dir_path file ∧ file ∈ names
          ∧ is_dir w (joinname dir_path file) = true.
Proof.
  unfold sub_directories. rewrite list_elem_of_fmap.
  split.
  - intros (file & -> & [? ?]%list_elem_of_filter). eauto.
  - intros (file & -> & ? & ?). exists file. split; [done|].
    by apply list_elem_of_filter.
Qed.

Lemma extend_all_is_Some recur dir_path sub_dirs files :
  (∀ sub_dir, sub_dir ∈ sub_dirs → is_Some (recur (joinpath dir_path sub_dir))) →
  is_Some (extend_all recur dir_path sub_dirs files).
Proof.
  revert files. induction sub_dirs as [|sub_dir rest IH]; intros files Hall; simpl.
  - eauto.
  - destruct (Hall sub_dir) as [[found|e] ->]; [left|..]; [|eauto].
    apply IH. intros ??. apply Hall. by right.
Qed.

Lemma extend_all_mono recur recur' dir_path sub_dirs files r :
  (∀ p r, recur p = Some r → recur' p = Some r) →
  extend_all recur dir_path sub_dirs files = Some r →
  extend_all recur' dir_path sub_dirs files = Some r.
Proof.
  intros Hsub. revert files.
  induction sub_dirs as [|sub_dir rest IH]; intros files; simpl; [done|].
  destruct (recur (joinpath dir_path sub_dir)) as [[found|e]|] eqn:Hr; [..|done].
  - rewrite (Hsub _ _ Hr). apply IH.
  - by rewrite (Hsub _ _ Hr).
Qed.

Lemma extend_all_files recur recur' dir_path sub_dirs files :
  (∀ sub_dir, sub_dir ∈ sub_dirs →
     recur (joinpath dir_path sub_dir) = Some (recur' (joinpath dir_path sub_dir))) →
  extend_all recur dir_path sub_dirs files
  = Some (extend_files recur' dir_path sub_dirs files).
Proof.
  revert files. induction sub_dirs as [|sub_dir rest IH]; intros files Hall; simpl.
  - done.
  - rewrite (Hall sub_dir) by left.
    destruct (recur' (joinpath dir_path sub_dir)) as [found|e]; simpl; [|done].
    apply IH. intros ??. apply Hall. by right.
Qed.

(** With a depth bound that covers what is left of the tree below
    [dir_path], the recursion ends before the bound is reached. *)
Lemma get_all_files_rec_is_Some n dir_path :
  height (fs_root w) ≤ n + length (location w dir_path) →
  is_Some (get_all_files_rec (S n) w dir_path file_filter).
Proof.
  revert dir_path. induction n as [|n IH]; intros dir_path Hn;
    cbn [get_all_files_rec];
    destruct (listdir w dir_path) as [names|e] eqn:Hls; eauto;
    destruct (matching file_filter dir_path names) as [files|e]; eauto.
  - apply listdir_height in Hls. lia.
  - apply extend_all_is_Some.
    intros sub_dir (file & -> & _ & _)%elem_of_sub_directories.
    apply IH. pose proof (location_descend dir_path file). lia.
Qed.

Lemma get_all_files_rec_mono n m dir_path r :
  n ≤ m →
  get_all_files_rec n w dir_path file_filter = Some r →
  get_all_files_rec m w dir_path file_filter = Some r.
Proof.
  revert m dir_path r. induction n as [|n IH]; intros m dir_path r Hnm; [done|].
  destruct m as [|m]; [lia|]. cbn [get_all_files_rec].
  destruct (listdir w dir_path) as [names|e]; [|done].
  destruct (matching file_filter dir_path names) as [files|e]; [|done].
  apply extend_all_mono. intros p r'. apply IH. lia.
Qed.

(** Any sufficient bound gives the result of [get_all_files]. *)
Lemma get_all_files_rec_enough n dir_path :
  height (fs_root w) ≤ n →
  get_all_files_rec (S n) w dir_path file_filter
  = Some (get_all_files w dir_path file_filter).
Proof.
  intros Hn. unfold get_all_files.
  destruct (get_all_files_rec_is_Some (height (fs_root w)) dir_path) as [r Hr]; [lia|].
  rewrite Hr. eapply get_all_files_rec_mono; [|done]. lia.
Qed.

(** [get_all_files] as the source states it. *)
Lemma get_all_files_unfold dir_path :
  get_all_files w dir_path file_filter
  = outcome_bind (listdir w dir_path) (λ names,
      outcome_bind (matching file_filter dir_path names) (λ files,
        outcome_bind (listdir w dir_path) (λ names,
          let sub_dirs := sub_directories w dir_path names in
          extend_files (λ full_path, get_all_files w full_path file_filter)
            dir_path sub_dirs files))).
Proof.
  pose proof (get_all_files_rec_enough (S (height (fs_root w))) dir_path) as Hr.
  cbn [get_all_files_rec] in Hr.
  destruct (listdir w dir_path) as [names|e]; simpl.
  2:{ by injection Hr; [|lia]. }
  destruct (matching file_filter dir_path names) as [files|e]; simpl.
  2:{ by injection Hr; [|lia]. }
  rewrite (extend_all_files _ (λ full_path, get_all_files w full_path file_filter)) in Hr.
  - by injection Hr; [|lia].
  - intros ??. apply get_all_files_rec_enough. lia.
Qed.

(** Induction along the recursive calls of [get_all_files]. *)
Lemma get_all_files_ind (P : Path → Prop) :
  (∀ dir_path,
     (∀ names file, listdir w dir_path = Returned names → file ∈ names →
        is_dir w (joinname dir_path file) = true →
        P (joinpath dir_path (joinname dir_path file))) →
     P dir_path) →
  ∀ dir_path, P dir_path.
Proof.
  intros Hstep dir_path.
  remember (height (fs_root w) - length (location w dir_path)) as k eqn:Hk.
  revert dir_path Hk. induction k as [k IH] using lt_wf_ind. intros dir_path ->.
  apply Hstep. intros names file Hls%listdir_height _ _.
  eapply IH; [|done]. pose proof (location_descend dir_path file). lia.
Qed.

End Recursion.

(** ** The file discoverer: what it returns *)

Section Discoverer.

Context (w : World).

Lemma matching_Some f dir_path names :
  matching (Some f) dir_path names
  = Returned (filter (λ p, f p = true) (joinname dir_path <$> names)).
Proof.
  induction names as [|file rest IH]; simpl; [done|].
  rewrite IH. simpl. rewrite filter_cons.
  destruct (f (joinname dir_path file)); by case_decide.
Qed.

Lemma extend_files_filter f recur_f recur_all dir_path sub_dirs files :
  (∀ sub_dir, sub_dir ∈ sub_dirs →
     recur_f (joinpath dir_path sub_dir)
     = outcome_map (filter (λ p, f p = true)) (recur_all (joinpath dir_path sub_dir))) →
  extend_files recur_f dir_path sub_dirs (filter (λ p, f p = true) files)
  = outcome_map (filter (λ p, f p = true))
      (extend_files recur_all dir_path sub_dirs files).
Proof.
  revert files. induction sub_dirs as [|sub_dir rest IH]; intros files Hall; simpl.
  - done.
  - rewrite (Hall sub_dir) by left.
    destruct (recur_all (joinpath dir_path sub_dir)) as [found|e]; simpl; [|done].
    rewrite <- filter_app. apply IH. intros ??. apply Hall. by right.
Qed.

(** The walk does not depend on the filter: filtering while walking is
    walking and filtering afterwards. *)
Lemma get_all_files_filter f dir_path :
  get_all_files w dir_path (Some f)
  = outcome_map (filter (λ p, f p = true))
      (get_all_files w dir_path (Some (λ _, true))).
Proof.
  induction dir_path as [dir_path IH] using (get_all_files_ind w).
  rewrite (get_all_files_unfold w (Some f)),
    (get_all_files_unfold w (Some (λ _, true))).
  destruct (listdir w dir_path) as [names|e] eqn:Hls; simpl; [|done].
  rewrite !matching_Some. simpl.
  rewrite (extend_files_filter f _ (λ full_path, get_all_files w full_path (Some (λ _, true)))).
  - do 2 f_equal. clear. induction (joinname dir_path <$> names) as [|p l IHl]; [done|].
    rewrite filter_cons, decide_True by done. by f_equal.
  - intros sub_dir (file & -> & ? & ?)%elem_of_sub_directories. by eapply IH.
Qed.

Lemma extend_files_Returned (Q : Path → Path → Prop) recur dir_path sub_dirs files :
  (∀ sub_dir, sub_dir ∈ sub_dirs →
     ∃ l, recur (joinpath dir_path sub_dir) = Returned l ∧ ∀ q, q ∈ l ↔ Q sub_dir q) →
  ∃ l, extend_files recur dir_path sub_dirs files = Returned l
       ∧ ∀ q, q ∈ l ↔ q ∈ files ∨ ∃ sub_dir, sub_dir ∈ sub_dirs ∧ Q sub_dir q.
Proof.
  revert files. induction sub_dirs as [|sub_dir rest IH]; intros files Hall; simpl.
  - exists files. split; [done|]. intros q. split; [by left|].
    intros [?|(s & Hs & _)]; [done|]. by apply elem_of_nil in Hs.
  - destruct (Hall sub_dir) as (found & -> & Hfound); [left|]. simpl.
    destruct (IH (files ++ found)) as (l & -> & Hl).
    { intros ??. apply Hall. by right. }
    exists l. split; [done|]. intros q. rewrite Hl, elem_of_app, Hfound.
    split.
    + intros [[?|?]|(s & ? & ?)]; [by left|right..].
      * exists sub_dir. split; [left|done].
      * exists s. split; [by right|done].
    + intros [?|(s & [->|?]%elem_of_cons & ?)]; [by left; left|by left; right|].
      right. eauto.
Qed.

Lemma below_joinname d file rest :
  below (joinname d file) rest = below d (file :: rest).
Proof.
  unfold below, joinname, joinpath. simpl. by rewrite <- app_assoc.
Qed.

Lemma joinname_below d file : joinname d file = below d [file].
Proof. done. Qed.

Lemma joinpath_absolute d q : anchored q = true → joinpath d q = q.
Proof. unfold joinpath. by intros ->. Qed.

(** The path of the recursive call: the sub-directory when [dir_path] is
    absolute, and [dir_path] twice and then the name when it is not. *)
Lemma full_path_absolute dir_path file :
  anchored dir_path = true →
  joinpath dir_path (joinname dir_path file) = below dir_path [file].
Proof. intros Habs. apply joinpath_absolute. unfold joinname, joinpath. by simpl. Qed.

Lemma full_path_relative dir_path file :
  anchored dir_path = false →
  joinpath dir_path (joinname dir_path file)
  = below dir_path (parts dir_path ++ [file]).
Proof. intros Hrel. unfold joinname, joinpath, below. simpl. by rewrite Hrel. Qed.

Lemma stat_at_below d rest :
  stat_at w (below d rest)
  = stat <$> (lookup_path (fs_root w) (location w d) ≫= λ c, lookup_path c rest).
Proof.
  unfold stat_at. f_equal. rewrite <- lookup_path_app. f_equal.
  unfold location, below. simpl. destruct (anchored d); [done|].
  by rewrite app_assoc.
Qed.

Lemma is_dir_true p :
  is_dir w p = true ↔ ∃ es, lookup_path (fs_root w) (location w p) = Some (Dir es).
Proof.
  unfold is_dir, stat_at.
  destruct (lookup_path (fs_root w) (location w p)) as [[d|es]|]; simpl;
    split; try done; eauto; by intros [? ?].
Qed.

Lemma is_dir_listdir p :
  is_dir w p = true ↔ ∃ names, listdir w p = Returned names.
Proof.
  unfold is_dir, listdir. destruct (stat_at w p) as [[d|names]|];
    split; try done; eauto; try (by intros [? ?]).
  intros [names H]. by destruct (through_file _ _).
Qed.

(** Below an absolute directory the walk returns the entries, at any
    depth and of either kind, for which the filter holds. *)
Lemma get_all_files_absolute f dir_path :
  anchored dir_path = true →
  is_dir w dir_path = true →
  ∃ l, get_all_files w dir_path (Some f) = Returned l
       ∧ ∀ q, q ∈ l ↔
           ∃ rest, rest ≠ [] ∧ q = below dir_path rest
                   ∧ is_Some (stat_at w q) ∧ f q = true.
Proof.
  induction dir_path as [dir_path IH] using (get_all_files_ind w).
  intros Habs [names Hls]%is_dir_listdir.
  rewrite get_all_files_unfold, Hls. simpl. rewrite matching_Some. simpl.
  destruct (listdir_Returned w _ _ Hls) as (es & Hes & ->).
  edestruct (extend_files_Returned
    (λ sub_dir q, ∃ rest, rest ≠ [] ∧ q = below sub_dir rest
                          ∧ is_Some (stat_at w q) ∧ f q = true))
    as (l & Hl & Hmem); [|exists l; split; [exact Hl|]].
  { intros sub_dir (file & -> & Hin & Hdir)%elem_of_sub_directories.
    assert (anchored (joinname dir_path file) = true) as Hj
      by (unfold joinname, joinpath; by simpl).
    specialize (IH _ file Hls Hin Hdir).
    rewrite (joinpath_absolute _ _ Hj) in IH |- *. by apply IH. }
  intros q. rewrite Hmem. clear Hmem Hl. split.
  - intros [Hq|(sub_dir & Hsub & rest & Hne & -> & Hst & Hf)].
    + apply list_elem_of_filter in Hq as [Hf Hq].
      apply list_elem_of_fmap in Hq as (file & -> & Hin).
      exists [file]. repeat split; try done.
      rewrite joinname_below, stat_at_below, Hes. simpl.
      destruct (assoc_names_Some _ _ Hin) as [c ->]. by eexists.
    + apply elem_of_sub_directories in Hsub as (file & -> & _ & _).
      exists (file :: rest). by rewrite <- below_joinname.
  - intros ([|file rest] & Hne & -> & Hst & Hf); [done|].
    rewrite stat_at_below, Hes in Hst. simpl in Hst.
    destruct (assoc file es) as [c|] eqn:Hc; [|by destruct Hst].
    pose proof (assoc_Some_names _ _ _ Hc) as Hin.
    destruct rest as [|x rest].
    + left. apply list_elem_of_filter. split; [done|].
      apply list_elem_of_fmap. eauto.
    + right. exists (joinname dir_path file). split.
      * apply elem_of_sub_directories. exists file. repeat split; [done|].
        apply is_dir_true. rewrite joinname_below.
        destruct c as [d|es']; [by destruct Hst|]. exists es'.
        unfold location at 1. unfold below at 1. simpl.
        rewrite Habs. unfold location in Hes. rewrite Habs in Hes.
        rewrite lookup_path_app, Hes. simpl. by rewrite Hc.
      * exists (x :: rest). rewrite below_joinname. repeat split; try done.
        rewrite stat_at_below, Hes. simpl. by rewrite Hc.
Qed.

#[local] Instance joinname_inj d : Inj (=) (=) (joinname d).
Proof.
  intros a b. unfold joinname, joinpath. simpl. intros [= H].
  by apply app_inv_head in H as [= ->].
Qed.

Lemma below_inj d : Inj (=) (=) (below d).
Proof. intros r r'. unfold below. intros [= H]. by apply app_inv_head in H. Qed.

Lemma extend_files_NoDup (Q : Path → Path → Prop) recur dir_path sub_dirs files l :
  NoDup sub_dirs →
  (∀ sub_dir, sub_dir ∈ sub_dirs →
     ∃ l, recur (joinpath dir_path sub_dir) = Returned l
          ∧ NoDup l ∧ ∀ q, q ∈ l → Q sub_dir q) →
  (∀ s s' q, s ∈ sub_dirs → s' ∈ sub_dirs → Q s q → Q s' q → s = s') →
  NoDup files →
  (∀ s q, s ∈ sub_dirs → Q s q → q ∉ files) →
  extend_files recur dir_path sub_dirs files = Returned l →
  NoDup l.
Proof.
  revert files. induction sub_dirs as [|sub_dir rest IH];
    intros files Hsubs Hall Hfun Hfiles Hsep; simpl.
  - by intros [= <-].
  - apply NoDup_cons in Hsubs as [Hnotin Hrest].
    destruct (Hall sub_dir) as (found & -> & Hfound & HQ); [left|]. simpl.
    apply IH; try done.
    + intros ??. apply Hall. by right.
    + intros s s' q ??. apply Hfun; by right.
    + apply NoDup_app. repeat split; try done.
      intros q Hq Hq'. eapply (Hsep sub_dir); [left|by apply HQ|done].
    + intros s q Hs Hq [Hin|Hin]%elem_of_app.
      * eapply (Hsep s); [by right|done..].
      * apply Hnotin. rewrite (Hfun sub_dir s q); try done; [left|by right|by apply HQ].
Qed.

(** Where no directory lists a name twice, neither does the walk from an
    absolute directory return a path twice. *)
Lemma get_all_files_absolute_NoDup f dir_path l :
  unique_names w →
  anchored dir_path = true →
  get_all_files w dir_path (Some f) = Returned l →
  NoDup l.
Proof.
  intros Huniq. revert l.
  induction dir_path as [dir_path IH] using (get_all_files_ind w).
  intros l Habs. rewrite get_all_files_unfold.
  destruct (listdir w dir_path) as [names|e] eqn:Hls; simpl; [|done].
  rewrite matching_Some. simpl.
  apply (extend_files_NoDup (λ s q, ∃ rest, rest ≠ [] ∧ q = below s rest)).
  - apply (NoDup_fmap_2 _), NoDup_filter. by eapply Huniq.
  - intros sub_dir (file & -> & Hin & Hdir)%elem_of_sub_directories.
    rewrite full_path_absolute by done. rewrite <- joinname_below.
    destruct (get_all_files_absolute f (joinname dir_path file))
      as (found & Hfound & Hmem); [by unfold joinname, joinpath|done|].
    exists found. split; [done|]. split.
    + specialize (IH names file eq_refl Hin Hdir found).
      rewrite full_path_absolute, <- joinname_below in IH by done.
      apply IH; [by unfold joinname, joinpath|done].
    + intros q (rest & ? & ? & _)%Hmem. eauto.
  - intros s s' q (a & -> & _)%elem_of_sub_directories
      (b & -> & _)%elem_of_sub_directories (r & _ & ->) (r' & _ & Heq).
    rewrite !below_joinname in Heq. by apply below_inj in Heq as [= ->].
  - apply NoDup_filter, (NoDup_fmap_2 _). by eapply Huniq.
  - intros s q (a & -> & _)%elem_of_sub_directories (r & Hr & ->).
    intros [_ (x & Heq & _)%list_elem_of_fmap]%list_elem_of_filter.
    rewrite below_joinname, joinname_below in Heq.
    apply below_inj in Heq as [= -> ->]. done.
Qed.

End Discoverer.

(** ** Running computations *)

Ltac run :=
  unfold mbind, M_bind, mret, M_ret, raise, lift, get_world, put_world, print;
  simpl.

Tactic Notation "run" "in" hyp(H) :=
  unfold mbind, M_bind, mret, M_ret, raise, lift, get_world, put_world, print in H;
  simpl in H.

Section Monad.

Lemma bind_Returned {A B} (m : M A) (k : A → M B) st a st' :
  m st = (Returned a, st') → (m ≫= k) st = k a st'.
Proof. intros H. run. by rewrite H. Qed.

Lemma bind_inv {A B} (m : M A) (k : A → M B) st b st' :
  (m ≫= k) st = (Returned b, st') →
  ∃ a st1, m st = (Returned a, st1) ∧ k a st1 = (Returned b, st').
Proof.
  run. destruct (m st) as [[a|e] st1]; [eauto|done].
Qed.

End Monad.

(** ** The song loader *)

Section Loader.

Lemma load_song_Returned path st song :
  load_file (world st) path = Returned song →
  load_song path st = (Returned (Some song), st).
Proof. intros H. unfold load_song. run. by rewrite H. Qed.

Lemma load_song_Raised path st e :
  load_file (world st) path = Raised e →
  load_song path st
  = (Returned None, mkState (world st) (stdout st ++ [except_line e path])).
Proof.
  intros H. unfold load_song, except_line. run. rewrite H.
  by destruct (exn_class e).
Qed.

Lemma load_loop_spec files songs st :
  load_loop files songs st
  = (Returned (songs ++ (loaded (world st) <$> files)),
     mkState (world st) (stdout st ++ load_lines (world st) files)).
Proof.
  revert songs st. induction files as [|path files IH]; intros songs st; simpl.
  - run. rewrite !app_nil_r. by destruct st.
  - unfold loaded at 1, load_lines. simpl.
    destruct (load_file (world st) path) as [song|e] eqn:Hl.
    + erewrite bind_Returned by by apply load_song_Returned.
      rewrite IH. by rewrite <- app_assoc.
    + erewrite bind_Returned by by apply load_song_Raised.
      rewrite IH. simpl. by rewrite <- !app_assoc.
Qed.

Lemma load_all_songs_spec files st :
  load_all_songs files st
  = (Returned (loaded (world st) <$> files),
     mkState (world st) (stdout st ++ load_lines (world st) files)).
Proof. apply load_loop_spec. Qed.

End Loader.

(** ** The tag fixer *)

Section Fixer.

Lemma stat_at_write_file w p d q :
  is_file (lookup_path (fs_root w) (location w p)) →
  stat_at (write_file w p d) q
  = if decide (location w q = location w p) then Some (KFile d) else stat_at w q.
Proof. intros Hf. unfold stat_at. simpl. by apply stat_write_path. Qed.

Lemma stat_at_KFile w p d :
  stat_at w p = Some (KFile d) →
  is_file (lookup_path (fs_root w) (location w p)).
Proof.
  unfold stat_at. by destruct (lookup_path (fs_root w) (location w p)) as [[?|?]|].
Qed.

Lemma stat_at_location w p q :
  location w q = location w p → stat_at w q = stat_at w p.
Proof. unfold stat_at. by intros ->. Qed.

Lemma save_inv f st r st' :
  save f st = (Returned r, st') →
  (∃ t, stat_at (world st) (filename f) = Some (KFile (Audio t true)))
  ∧ st' = mkState (write_file (world st) (filename f) (Audio (tags f) true)) (stdout st).
Proof.
  unfold save. run.
  destruct (stat_at (world st) (filename f)) as [[[t [|]|e]|names]|]; try done.
  intros [= _ <-]. eauto.
Qed.

Lemma save_Returned f st t :
  stat_at (world st) (filename f) = Some (KFile (Audio t true)) →
  save f st
  = (Returned tt,
     mkState (write_file (world st) (filename f) (Audio (tags f) true)) (stdout st)).
Proof. intros H. unfold save. run. by rewrite H. Qed.

Lemma contains_fixed f : contains ALBUM_ARTIST (fixed f) = true.
Proof.
  unfold contains, fixed, setitem. simpl. apply bool_decide_eq_true.
  rewrite lookup_insert_eq. eauto.
Qed.

Lemma fix_song_None n st : fix_song None n st = (Raised none_not_iterable, st).
Proof. done. Qed.

Lemma fix_song_present f n st :
  contains ALBUM_ARTIST f = true →
  fix_song (Some f) n st = (Returned (Some f, n), st).
Proof. intros H. unfold fix_song. by rewrite H. Qed.

Lemma fix_song_absent f n st t :
  contains ALBUM_ARTIST f = false →
  stat_at (world st) (filename f) = Some (KFile (Audio t true)) →
  fix_song (Some f) n st
  = (Returned (Some (fixed f), S n),
     mkState (write_file (world st) (filename f) (Audio (tags (fixed f)) true))
       (stdout st ++ [FixedMissingTag (getitem (fixed f) TITLE)])).
Proof.
  intros H Hst. unfold fix_song, set_album_artist. rewrite H. simpl.
  erewrite bind_Returned; [|erewrite bind_Returned; [|by eapply save_Returned]; done].
  done.
Qed.

Lemma fix_song_absent_inv f n st r st' :
  contains ALBUM_ARTIST f = false →
  fix_song (Some f) n st = (Returned r, st') →
  ∃ t, stat_at (world st) (filename f) = Some (KFile (Audio t true)).
Proof.
  intros H. unfold fix_song, set_album_artist. rewrite H. simpl.
  intros (f' & st1 & (u & st2 & Hs & _)%bind_inv & _)%bind_inv.
  by apply save_inv in Hs as [? _].
Qed.

Lemma fix_loop_cons_inv song rest n st r n' st' :
  fix_loop (song :: rest) n st = (Returned (r, n'), st') →
  ∃ song' n1 st1 rest',
    fix_song song n st = (Returned (song', n1), st1)
    ∧ fix_loop rest n1 st1 = (Returned (rest', n'), st')
    ∧ r = song' :: rest'.
Proof.
  simpl. intros ([song' n1] & st1 & Hs & H)%bind_inv.
  apply bind_inv in H as ([rest' n2] & st2 & Hl & H).
  injection H as <- <- <-. by exists song', n1, st1, rest'.
Qed.

Lemma fix_loop_cons song rest n st song' n1 st1 :
  fix_song song n st = (Returned (song', n1), st1) →
  fix_loop (song :: rest) n st
  = match fix_loop rest n1 st1 with
    | (Returned (rest', n'), st') => (Returned (song' :: rest', n'), st')
    | (Raised e, st') => (Raised e, st')
    end.
Proof.
  intros Hs. simpl. erewrite bind_Returned by done. run.
  by destruct (fix_loop rest n1 st1) as [[[rest' n']|e] st'].
Qed.

(** The run of the loop up to, at and after the element at index [i]. *)
Lemma fix_loop_lookup songs n st r n' st' i song :
  fix_loop songs n st = (Returned (r, n'), st') →
  songs !! i = Some song →
  ∃ pre n0 st0 song' n1 st1,
    fix_loop (take i songs) n st = (Returned (pre, n0), st0)
    ∧ fix_song song n0 st0 = (Returned (song', n1), st1)
    ∧ r !! i = Some song'.
Proof.
  revert n st r i. induction songs as [|s songs IH]; intros n st r i H Hi; [done|].
  apply fix_loop_cons_inv in H as (s' & n1 & st1 & rest' & Hs & Hl & ->).
  destruct i as [|i]; simpl in Hi.
  - injection Hi as ->. exists [], n, st, s', n1, st1. by rewrite take_0.
  - destruct (IH _ _ _ _ Hl Hi) as (pre & n0 & st0 & song' & n2 & st2 & Hp & Hs' & Hr).
    exists (s' :: pre), n0, st0, song', n2, st2. repeat split; try done.
    rewrite firstn_cons. erewrite fix_loop_cons by done. by rewrite Hp.
Qed.

Lemma fix_loop_all_Some songs n st r st' song :
  fix_loop songs n st = (Returned r, st') → song ∈ songs → is_Some song.
Proof.
  revert n st r. induction songs as [|s songs IH]; intros n st [r n'] H Hin.
  - by apply elem_of_nil in Hin.
  - apply fix_loop_cons_inv in H as (s' & n1 & st1 & rest' & Hs & Hl & ->).
    apply elem_of_cons in Hin as [->|Hin]; [|by eapply IH].
    destruct s; [eauto|done].
Qed.

Lemma fix_loop_all_present songs n st :
  (∀ song, song ∈ songs → ∃ f, song = Some f ∧ contains ALBUM_ARTIST f = true) →
  fix_loop songs n st = (Returned (songs, n), st).
Proof.
  induction songs as [|s songs IH]; intros Hall; [done|].
  destruct (Hall s) as (f & -> & Hf); [left|].
  erewrite fix_loop_cons by by apply fix_song_present.
  rewrite IH; [done|]. intros ??. apply Hall. by right.
Qed.

(** Printing only adds lines, whether the call returns or raises. *)
Lemma fix_song_stdout song n st r st' :
  fix_song song n st = (r, st') → ∃ more, stdout st' = stdout st ++ more.
Proof.
  destruct song as [f|]; simpl.
  2:{ intros [= _ <-]. exists []. by rewrite app_nil_r. }
  destruct (contains ALBUM_ARTIST f); simpl.
  { intros [= _ <-]. exists []. by rewrite app_nil_r. }
  unfold set_album_artist, save. run.
  destruct (stat_at (world st) (filename _)) as [[[t [|]|e]|names]|];
    intros [= _ <-]; simpl; eauto; exists []; by rewrite app_nil_r.
Qed.

Lemma fix_loop_stdout songs n st r st' :
  fix_loop songs n st = (r, st') → ∃ more, stdout st' = stdout st ++ more.
Proof.
  revert n st r st'. induction songs as [|s songs IH]; intros n st r st'.
  - intros [= _ <-]. exists []. by rewrite app_nil_r.
  - simpl. run.
    destruct (fix_song s n st) as [[[s' n1]|e] st1] eqn:Hs;
      apply fix_song_stdout in Hs as [m1 Hm1].
    + destruct (fix_loop songs n1 st1) as [[[rest' n2]|e] st2] eqn:Hl;
        apply IH in Hl as [m2 Hm2]; intros [= _ <-];
        exists (m1 ++ m2); by rewrite Hm2, Hm1, app_assoc.
    + intros [= _ <-]. eauto.
Qed.

End Fixer.

(** ** What a run leaves on disk *)

Section Evolution.

Lemma evolves_refl w : evolves w w.
Proof.
  split; [done|]. intros q.
  destruct (stat_at w q) as [[[t wr|e]|names]|]; eauto.
Qed.

Lemma evolves_trans w1 w2 w3 : evolves w1 w2 → evolves w2 w3 → evolves w1 w3.
Proof.
  intros [Hc1 H1] [Hc2 H2]. split; [congruence|]. intros q.
  specialize (H1 q). specialize (H2 q).
  destruct (stat_at w1 q) as [[[t wr|e]|names]|].
  - destruct H1 as (t' & Hq & Ht'). rewrite Hq in H2.
    destruct H2 as (t'' & Hq' & Ht''). exists t''. split; [done|].
    destruct Ht'' as [->|?]; [done|by right].
  - by rewrite H1 in H2.
  - by rewrite H1 in H2.
  - by rewrite H1 in H2.
Qed.

(** Saving an object that carries an album artist. *)
Lemma evolves_write_file w f t :
  stat_at w (filename f) = Some (KFile (Audio t true)) →
  is_Some (tags f !! ALBUM_ARTIST) →
  evolves w (write_file w (filename f) (Audio (tags f) true)).
Proof.
  intros Hst Haa. split; [done|]. intros q.
  rewrite stat_at_write_file by by eapply stat_at_KFile.
  destruct (decide (location w q = location w (filename f))) as [Heq|Hne].
  - rewrite (stat_at_location _ _ _ Heq), Hst. eauto.
  - destruct (stat_at w q) as [[[t' wr|e]|names]|]; eauto.
Qed.

Lemma settled_write_file w f t :
  stat_at w (filename f) = Some (KFile (Audio t true)) →
  is_Some (tags f !! ALBUM_ARTIST) →
  settled (write_file w (filename f) (Audio (tags f) true)) (filename f).
Proof.
  intros Hst Haa. exists (tags f), true. split; [|done].
  rewrite stat_at_write_file by by eapply stat_at_KFile.
  by rewrite decide_True.
Qed.

Lemma settled_evolves w w' p : evolves w w' → settled w p → settled w' p.
Proof.
  intros [_ H] (t & wr & Hst & Haa). specialize (H p). rewrite Hst in H.
  destruct H as (t' & Hst' & [Heq|?]); exists t', wr; [by subst t'|done].
Qed.

Lemma listdir_evolves w w' p : evolves w w' → listdir w' p = listdir w p.
Proof.
  intros [Hcwd H]. apply listdir_same_kinds; [done|]. intros q. specialize (H q).
  destruct (stat_at w q) as [[[t wr|e]|names]|]; [|by left..].
  destruct H as (t' & -> & _). right. eauto.
Qed.

Lemma is_dir_evolves w w' p : evolves w w' → is_dir w' p = is_dir w p.
Proof.
  intros [_ H]. specialize (H p). unfold is_dir.
  destruct (stat_at w p) as [[[t wr|e]|names]|].
  - by destruct H as (t' & -> & _).
  - by rewrite H.
  - by rewrite H.
  - by rewrite H.
Qed.

Lemma sub_directories_evolves w w' dir_path names :
  evolves w w' →
  sub_directories w' dir_path names = sub_directories w dir_path names.
Proof.
  intros He. unfold sub_directories. f_equal.
  apply list_filter_iff. intros file. by rewrite (is_dir_evolves w w').
Qed.

Lemma extend_files_ext recur recur' dir_path sub_dirs files :
  (∀ sub_dir, sub_dir ∈ sub_dirs →
     recur (joinpath dir_path sub_dir) = recur' (joinpath dir_path sub_dir)) →
  extend_files recur dir_path sub_dirs files
  = extend_files recur' dir_path sub_dirs files.
Proof.
  revert files. induction sub_dirs as [|sub_dir rest IH]; intros files Hall; simpl.
  - done.
  - rewrite (Hall sub_dir) by left.
    destruct (recur' (joinpath dir_path sub_dir)) as [found|e]; simpl; [|done].
    apply IH. intros ??. apply Hall. by right.
Qed.

(** The walk sees directories and names only: it finds after the run what
    it found before. *)
Lemma get_all_files_evolves w w' file_filter dir_path :
  evolves w w' →
  get_all_files w' dir_path file_filter = get_all_files w dir_path file_filter.
Proof.
  intros He. induction dir_path as [dir_path IH] using (get_all_files_ind w).
  rewrite (get_all_files_unfold w'), (get_all_files_unfold w).
  rewrite (listdir_evolves w w') by done.
  destruct (listdir w dir_path) as [names|e] eqn:Hls; simpl; [|done].
  destruct (matching file_filter dir_path names) as [files|e]; simpl; [|done].
  rewrite (sub_directories_evolves w w') by done.
  apply extend_files_ext.
  intros sub_dir (file & -> & ? & ?)%elem_of_sub_directories. by eapply IH.
Qed.

Lemma settled_loaded w p :
  settled w p → ∃ f, load_file w p = Returned f ∧ contains ALBUM_ARTIST f = true.
Proof.
  intros (t & wr & Hst & Haa). exists (mkAudioFile p t).
  unfold load_file. rewrite Hst. split; [done|].
  unfold contains. simpl. by apply bool_decide_eq_true.
Qed.

Lemma loaded_contains_settled w p f :
  load_file w p = Returned f → contains ALBUM_ARTIST f = true →
  filename f = p ∧ settled w p.
Proof.
  unfold load_file, settled.
  destruct (stat_at w p) as [[[t wr|e]|names]|]; try done.
  intros [= <-]. unfold contains. simpl. intros Haa%bool_decide_eq_true. eauto.
Qed.

(** The loop of the fixer: the files evolve, and every object it went
    through leaves its file with an album artist, provided those that had
    one in memory had it on disk. *)
Lemma fix_loop_evolves songs n st r st' :
  fix_loop songs n st = (Returned r, st') →
  evolves (world st) (world st')
  ∧ ∀ f, Some f ∈ songs →
      (contains ALBUM_ARTIST f = true → settled (world st) (filename f)) →
      settled (world st') (filename f).
Proof.
  revert n st r. induction songs as [|s songs IH]; intros n st [r n'] H.
  - injection H as <- <- <-. split; [apply evolves_refl|].
    by intros f ?%elem_of_nil.
  - apply fix_loop_cons_inv in H as (s' & n1 & st1 & rest' & Hs & Hl & ->).
    destruct (IH _ _ _ Hl) as [He Hset].
    destruct s as [f0|]; [|done].
    assert (evolves (world st) (world st1)
            ∧ settled (world st1) (filename f0)
              ∨ contains ALBUM_ARTIST f0 = true ∧ st1 = st) as Hstep.
    { destruct (contains ALBUM_ARTIST f0) eqn:Hc.
      - right. rewrite fix_song_present in Hs by done. by injection Hs as <- <- <-.
      - left. destruct (fix_song_absent_inv _ _ _ _ _ Hc Hs) as [t Ht].
        erewrite fix_song_absent in Hs by done. injection Hs as <- <- <-. simpl.
        pose proof (contains_fixed f0) as Haa%bool_decide_eq_true. split.
        + by apply (evolves_write_file _ (fixed f0) t).
        + by apply (settled_write_file _ (fixed f0) t). }
    assert (evolves (world st) (world st1)) as He1.
    { destruct Hstep as [[? _]|[_ ->]]; [done|apply evolves_refl]. }
    split; [by eapply evolves_trans|].
    intros f [[= ->]|Hin]%elem_of_cons Hdisk.
    + eapply settled_evolves; [exact He|].
      destruct Hstep as [[_ ?]|[Hc ->]]; [done|by apply Hdisk].
    + apply Hset; [done|]. intros Hc. eapply settled_evolves; [exact He1|auto].
Qed.

End Evolution.

(** ** The whole run *)

Section Main.

Lemma main_run dir_path st :
  main dir_path st
  = match get_all_files (world st) dir_path (Some mp3_filter) with
    | Raised e => (Raised e, st)
    | Returned files =>
        let scanned :=
          mkState (world st)
            ((stdout st ++ load_lines (world st) files)
             ++ [FinishedScanning (length files)]) in
        match fix_loop (loaded (world st) <$> files) 0 scanned with
        | (Returned (songs, n), st') =>
            (Returned tt, mkState (world st') (stdout st' ++ [FinishedFixing n]))
        | (Raised e, st') => (Raised e, st')
        end
    end.
Proof.
  unfold main. run.
  destruct (get_all_files (world st) dir_path (Some mp3_filter)) as [files|e]; [|done].
  rewrite load_all_songs_spec. simpl. rewrite length_fmap.
  unfold fix_album_artist_tag. run.
  by destruct (fix_loop _ _ _) as [[[songs n]|e] st'].
Qed.

Lemma fix_album_artist_tag_inv songs st songs' st' :
  fix_album_artist_tag songs st = (Returned songs', st') →
  ∃ n st1, fix_loop songs 0 st = (Returned (songs', n), st1)
           ∧ st' = mkState (world st1) (stdout st1 ++ [FinishedFixing n]).
Proof.
  unfold fix_album_artist_tag. run.
  destruct (fix_loop songs 0 st) as [[[r n]|e] st1]; [|done].
  intros [= <- <-]. eauto.
Qed.

(** A path that was loaded and went through the loop is settled. *)
Lemma run_settles files n st r st' path :
  fix_loop (loaded (world st) <$> files) n st = (Returned r, st') →
  path ∈ files → settled (world st') path.
Proof.
  intros Hl Hin. destruct (fix_loop_evolves _ _ _ _ _ Hl) as [_ Hset].
  assert (loaded (world st) path ∈ loaded (world st) <$> files) as Hin'
    by by apply list_elem_of_fmap_2.
  destruct (fix_loop_all_Some _ _ _ _ _ _ Hl Hin') as [f Hf].
  rewrite Hf in Hin'. unfold loaded in Hf.
  destruct (load_file (world st) path) as [f'|e] eqn:Hload; [|done].
  injection Hf as ->.
  assert (filename f = path) as <-.
  { unfold load_file in Hload.
    destruct (stat_at (world st) path) as [[[t wr|e]|names]|]; try done.
    by injection Hload as <-. }
  apply Hset; [done|]. intros Hc.
  by destruct (loaded_contains_settled _ _ _ Hload Hc).
Qed.

(** A run in which a load failed does not return: the [None] that stands
    for the failed load is in the list the fixer goes through. *)
Lemma main_raises_after_failed_load dir_path st files path e st' :
  get_all_files (world st) dir_path (Some mp3_filter) = Returned files →
  path ∈ files →
  load_file (world st) path = Raised e →
  main dir_path st ≠ (Returned tt, st').
Proof.
  intros Hfiles Hin Hload. rewrite main_run, Hfiles. simpl.
  destruct (fix_loop _ _ _) as [[[songs n]|e'] st2] eqn:Hloop; [|done].
  assert (None ∈ loaded (world st) <$> files) as Hnone.
  { apply list_elem_of_fmap. exists path. unfold loaded. by rewrite Hload. }
  by destruct (fix_loop_all_Some _ _ _ _ _ _ Hloop Hnone).
Qed.

Lemma load_lines_settled w files :
  (∀ path, path ∈ files → settled w path) → load_lines w files = [].
Proof.
  induction files as [|path files IH]; intros Hall; [done|].
  unfold load_lines. simpl.
  destruct (settled_loaded w path) as (f & -> & _); [apply Hall; left|].
  simpl. apply IH. intros ??. apply Hall. by right.
Qed.

(** The scenario of the specification: [a.mp3] by Bob without an album
    artist, [b.mp3] by Bob with one.  One run prints that two songs were
    found and one fixed, gives [a.mp3] the album artist Bob and leaves
    [b.mp3] as it was. *)
Example main_on_shelf :
  let run := main music (mkState shelf []) in
  run.1 = Returned tt
  ∧ render <$> stdout run.2
    = ["Finished scanning all files (2 songs found)";
       "Fixed missing tag in song: A";
       "Finished fixing all songs (1 songs fixed)"]
  ∧ stat_at (world run.2) (absolute ["music"; "a.mp3"])
    = Some (KFile (Audio (<["album_artist" := "Bob"]> untagged) true))
  ∧ stat_at (world run.2) (absolute ["music"; "b.mp3"])
    = Some (KFile (Audio tagged true)).
Proof. repeat split; reflexivity. Qed.

End Main.

(** * The claims *)

(** ** Song loader *)

(** C7. Whatever exception [load_file] raises for a path, [load_song]
    returns: it prints one line, the one of the [except] clause that catches
    the exception, leaves the files alone and returns [None]; when
    [load_file] returns a song, [load_song] returns it and prints nothing. *)
Theorem load_song_never_raises path st :
  load_song path st
  = match load_file (world st) path with
    | Returned song => (Returned (Some song), st)
    | Raised e =>
        (Returned None, mkState (world st) (stdout st ++ [except_line e path]))
    end.
Proof.
  destruct (load_file (world st) path) as [song|e] eqn:Hload.
  - by apply load_song_Returned.
  - by apply load_song_Raised.
Qed.

(** C9. [load_all_songs] returns, and its result is as long as its input:
    the entry at an index is the song loaded from the path at that index, or
    [None] when loading that path raised.  [main] therefore reports the
    number of discovered paths as the number of songs found. *)
Theorem load_all_songs_keeps_length files st :
  ∃ songs st',
    load_all_songs files st = (Returned songs, st')
    ∧ length songs = length files
    ∧ (∀ i path, files !! i = Some path →
         songs !! i = Some (loaded (world st) path))
    ∧ (∀ i path e, files !! i = Some path →
         load_file (world st) path = Raised e → songs !! i = Some None)
    ∧ (∀ dir_path,
         get_all_files (world st) dir_path (Some mp3_filter) = Returned files →
         FinishedScanning (length files) ∈ stdout (main dir_path st).2).
Proof.
  eexists _, _. split; [apply load_all_songs_spec|].
  split; [by rewrite length_fmap|].
  assert (∀ i path, files !! i = Some path →
            (loaded (world st) <$> files) !! i = Some (loaded (world st) path)) as Hi.
  { intros i path Hi. by rewrite list_lookup_fmap, Hi. }
  split; [done|]. split.
  - intros i path e Hf Hload. rewrite (Hi _ _ Hf). unfold loaded. by rewrite Hload.
  - intros dir_path Hfiles. rewrite main_run, Hfiles. simpl.
    destruct (fix_loop _ _ _) as [[[songs n]|e] st'] eqn:Hloop; simpl.
    + pose proof (fix_loop_stdout _ _ _ _ _ Hloop) as [more ->]. simpl.
      rewrite !elem_of_app. do 2 left. right. left.
    + pose proof (fix_loop_stdout _ _ _ _ _ Hloop) as [more ->]. simpl.
      rewrite !elem_of_app. left. right. left.
Qed.

Lemma load_all_songs_keeps_length_witness :
  get_all_files shelf music (Some mp3_filter)
  = Returned [absolute ["music"; "a.mp3"]; absolute ["music"; "b.mp3"]]
  ∧ FinishedScanning 2 ∈ stdout (main music (mkState shelf [])).2.
Proof.
  split; [reflexivity|].
  destruct (load_all_songs_keeps_length
              [absolute ["music"; "a.mp3"]; absolute ["music"; "b.mp3"]]
              (mkState shelf [])) as (songs & st' & _ & _ & _ & _ & Hmain).
  apply (Hmain music). reflexivity.
Defined.

(** ** File discoverer *)

(** C10. With [None] for the filter, [get_all_files] raises [TypeError] on
    every directory that has an entry: the filter is called on the first
    entry, with no test for [None] before.  Only on a directory without
    entries, where nothing is called, does it return. *)
Theorem get_all_files_None_filter_raises w dir_path names :
  listdir w dir_path = Returned names →
  get_all_files w dir_path None
  = match names with
    | [] => Returned []
    | _ :: _ => Raised none_not_callable
    end.
Proof.
  intros Hls. rewrite get_all_files_unfold, Hls.
  destruct names as [|file names]; reflexivity.
Qed.

Lemma get_all_files_None_filter_raises_witness :
  listdir shelf music = Returned ["a.mp3"; "b.mp3"]
  ∧ get_all_files shelf music None = Raised none_not_callable.
Proof.
  split; [reflexivity|].
  apply (get_all_files_None_filter_raises shelf music ["a.mp3"; "b.mp3"]).
  reflexivity.
Defined.

(** C8. Of the entries the walk discovers, [main] hands to the loader
    exactly those whose suffix is [".mp3"], in the order of discovery; the
    comparison is that of strings, so an entry with suffix [".MP3"] is not
    handed over. *)
Theorem main_loads_exactly_mp3 w dir_path discovered :
  get_all_files w dir_path (Some (λ _, true)) = Returned discovered →
  ∃ files,
    get_all_files w dir_path (Some mp3_filter) = Returned files
    ∧ files = filter (λ q, suffix q = MP3) discovered
    ∧ (∀ q, q ∈ files ↔ q ∈ discovered ∧ suffix q = ".mp3")
    ∧ (∀ q, suffix q = ".MP3" → q ∉ files)
    ∧ ∀ out,
        main dir_path (mkState w out)
        = (songs ← load_all_songs files;
           print (FinishedScanning (length songs));;
           fix_album_artist_tag songs;;
           mret tt) (mkState w out).
Proof.
  intros Hall. exists (filter (λ q, suffix q = MP3) discovered).
  assert (get_all_files w dir_path (Some mp3_filter)
          = Returned (filter (λ q, suffix q = MP3) discovered)) as Hfiles.
  { rewrite get_all_files_filter, Hall. simpl. f_equal.
    apply list_filter_iff. intros q. unfold mp3_filter. apply String.eqb_eq. }
  split; [done|]. split; [done|].
  assert (∀ q, q ∈ filter (λ q, suffix q = MP3) discovered
               ↔ q ∈ discovered ∧ suffix q = ".mp3") as Hmem.
  { intros q. rewrite list_elem_of_filter. unfold MP3. tauto. }
  split; [done|]. split.
  - intros q Hq [_ Hs]%Hmem. by rewrite Hq in Hs.
  - intros out. unfold main. run. by rewrite Hfiles.
Qed.

Lemma main_loads_exactly_mp3_witness :
  get_all_files nested music (Some (λ _, true))
  = Returned [absolute ["music"; "sub"]; absolute ["music"; "sub"; "a.mp3"]]
  ∧ get_all_files nested music (Some mp3_filter)
    = Returned [absolute ["music"; "sub"; "a.mp3"]].
Proof.
  split; [reflexivity|].
  destruct (main_loads_exactly_mp3 nested music
              [absolute ["music"; "sub"]; absolute ["music"; "sub"; "a.mp3"]])
    as (files & Hfiles & -> & _); [reflexivity|].
  exact Hfiles.
Defined.

(** C4. The filter is put to every entry, directories too, so a directory
    for which it holds is in the result: with the filter of [main] the
    directory [/music/live.mp3], and with a filter that holds everywhere the
    directory [/music/sub] next to the song in it. *)
Theorem get_all_files_returns_directory :
  get_all_files live_album music (Some mp3_filter)
  = Returned [absolute ["music"; "live.mp3"]]
  ∧ is_dir live_album (absolute ["music"; "live.mp3"]) = true
  ∧ get_all_files nested music (Some (λ _, true))
    = Returned [absolute ["music"; "sub"]; absolute ["music"; "sub"; "a.mp3"]]
  ∧ is_dir nested (absolute ["music"; "sub"]) = true.
Proof. repeat split; reflexivity. Qed.

(** C3. On a relative directory with a sub-directory the walk does not
    return: [sub_dir] already starts with [dir_path], joining the two again
    names a directory that is not there, and listing it raises.  The same
    tree walked from the absolute path gives the one song in it. *)
Theorem get_all_files_relative_root_fails :
  get_all_files nested (relative ["music"]) (Some mp3_filter)
  = Raised no_such_file
  ∧ sub_directories nested (relative ["music"]) ["sub"]
    = [relative ["music"; "sub"]]
  ∧ joinpath (relative ["music"]) (relative ["music"; "sub"])
    = relative ["music"; "music"; "sub"]
  ∧ get_all_files nested (absolute ["music"]) (Some mp3_filter)
    = Returned [absolute ["music"; "sub"; "a.mp3"]].
Proof. repeat split; reflexivity. Qed.

(** C2. A path whose load fails stays in the list handed to the fixer, as
    [None], and the fixer raises [TypeError] on it: the run ends there, after
    the line of the failed load and the count of songs found (which counts
    the failed load), and before [a.mp3] is fixed. *)
Theorem main_crashes_after_failed_load :
  load_all_songs
    [absolute ["music"; "notes.mp3"]; absolute ["music"; "a.mp3"]]
    (mkState mislabelled [])
  = (Returned [None; Some (mkAudioFile (absolute ["music"; "a.mp3"]) untagged)],
     mkState mislabelled [NotMusicFile (absolute ["music"; "notes.mp3"])])
  ∧ main music (mkState mislabelled [])
    = (Raised none_not_iterable,
       mkState mislabelled
         [NotMusicFile (absolute ["music"; "notes.mp3"]); FinishedScanning 2]).
Proof. split; reflexivity. Qed.

(** ** Tag fixer *)



(** C5. A song that has an album artist when the loop reaches it goes
    through untouched: in whatever state the pass over it starts, it returns
    that state (the files and the output), the count and the object as they
    were; after a run that returns, the object in the list is the one that
    was there. *)
Theorem fix_album_artist_tag_keeps_present_tag songs st songs' st' i f :
  fix_album_artist_tag songs st = (Returned songs', st') →
  songs !! i = Some (Some f) →
  contains ALBUM_ARTIST f = true →
  (∀ n0 st0, fix_song (Some f) n0 st0 = (Returned (Some f, n0), st0))
  ∧ (∃ pre n0 st0, fix_loop (take i songs) 0 st = (Returned (pre, n0), st0))
  ∧ songs' !! i = Some (Some f).
Proof.
  intros (n & st2 & Hloop & ->)%fix_album_artist_tag_inv Hi Hc.
  split; [intros; by apply fix_song_present|].
  destruct (fix_loop_lookup _ _ _ _ _ _ _ _ Hloop Hi)
    as (pre & n0 & st0 & song' & n1 & st1 & Hpre & Hs & Hr).
  rewrite fix_song_present in Hs by done. injection Hs as <- <- <-.
  split; [|done]. by exists pre, n0, st0.
Qed.

Lemma fix_album_artist_tag_keeps_present_tag_witness :
  let song := mkAudioFile (absolute ["music"; "b.mp3"]) tagged in
  let run := fix_album_artist_tag [Some song] (mkState shelf []) in
  run = (Returned [Some song], mkState shelf [FinishedFixing 0])
  ∧ contains ALBUM_ARTIST song = true
  ∧ run.1 = Returned [Some song].
Proof.
  intros song run. split; [reflexivity|]. split; [reflexivity|].
  destruct (fix_album_artist_tag_keeps_present_tag
              [Some song] (mkState shelf []) [Some song] run.2 0 song)
    as (_ & _ & Hi); [reflexivity..|].
  reflexivity.
Defined.


(** X18. After a run of [main] that returned, in which every song found
    without album artist had an artist, a second run over the same directory
    returns too, leaves every file as it is and fixes no song: it prints the
    count of songs found and [0] for the songs fixed, and nothing else. *)
Theorem main_twice_fixes_nothing_with_artists dir_path st st1 files :
  main dir_path st = (Returned tt, st1) →
  get_all_files (world st) dir_path (Some mp3_filter) = Returned files →
  artists_known (world st) files →
  main dir_path st1
  = (Returned tt,
     mkState (world st1)
       (stdout st1 ++ [FinishedScanning (length files); FinishedFixing 0])).
Proof.
  rewrite main_run. intros Hmain Hfiles _. rewrite Hfiles in Hmain. simpl in Hmain.
  destruct (fix_loop _ _ _) as [[[songs n]|e] st2] eqn:Hloop; [|done].
  injection Hmain as <-.
  destruct (fix_loop_evolves _ _ _ _ _ Hloop) as [Hev _]. simpl in Hev.
  assert (∀ path, path ∈ files → settled (world st2) path) as Hset.
  { intros path Hin. by eapply (run_settles files 0 (mkState (world st) _)). }
  rewrite main_run. simpl.
  rewrite (get_all_files_evolves (world st) (world st2)), Hfiles by done.
  rewrite load_lines_settled by done.
  rewrite fix_loop_all_present.
  - simpl. by rewrite app_nil_r, <- !app_assoc.
  - intros song (path & -> & Hin)%list_elem_of_fmap.
    destruct (settled_loaded _ _ (Hset _ Hin)) as (f & Hf & Hc).
    exists f. unfold loaded. by rewrite Hf.
Qed.

Lemma main_twice_fixes_nothing_with_artists_witness :
  let first := main music (mkState shelf []) in
  let files := [absolute ["music"; "a.mp3"]; absolute ["music"; "b.mp3"]] in
  first.1 = Returned tt
  ∧ get_all_files shelf music (Some mp3_filter) = Returned files
  ∧ stdout first.2 = [FinishedScanning 2; FixedMissingTag "A"; FinishedFixing 1]
  ∧ main music first.2
    = (Returned tt,
       mkState (world first.2)
         (stdout first.2 ++ [FinishedScanning 2; FinishedFixing 0])).
Proof.
  intros first files. split; [reflexivity|]. split; [reflexivity|].
  split; [reflexivity|].
  apply (main_twice_fixes_nothing_with_artists music (mkState shelf []) first.2 files);
    [reflexivity..|].
  intros p t wr [->|[->|Hin%elem_of_nil]%elem_of_cons]%elem_of_cons Hst Hnone;
    [|exfalso|done]; vm_compute in Hst; injection Hst as <- <-;
    [eexists; reflexivity|discriminate Hnone].
Defined.

(** * Further properties of the code *)

(** ** File discoverer *)

Section DiscovererMore.

Context (w : World).

Lemma assoc_unique_tree x es c :
  unique_entries es = true → assoc x es = Some c → unique_tree c = true.
Proof.
  induction es as [|[y c'] es IH]; simpl; [done|].
  intros [Hc Hes]%andb_true_iff.
  destruct (String.eqb x y); [by intros [= <-]|auto].
Qed.

Lemma unique_tree_Dir es :
  unique_tree (Dir es) = bool_decide (NoDup (map fst es)) && unique_entries es.
Proof. reflexivity. Qed.

Lemma unique_tree_lookup n ps es :
  unique_tree n = true → lookup_path n ps = Some (Dir es) → NoDup (map fst es).
Proof.
  revert n. induction ps as [|x ps IH]; intros n Hn; simpl.
  - intros [= ->]. rewrite unique_tree_Dir in Hn.
    by apply andb_true_iff in Hn as [?%bool_decide_eq_true _].
  - destruct n as [d|es0]; [done|].
    destruct (assoc x es0) as [c|] eqn:Hc; [|done].
    apply IH. rewrite unique_tree_Dir in Hn.
    apply andb_true_iff in Hn as [_ Hes]. by eapply assoc_unique_tree.
Qed.

Lemma unique_tree_names : unique_tree (fs_root w) = true → unique_names w.
Proof.
  intros Hu q names (es & Hes & ->)%listdir_Returned.
  by eapply unique_tree_lookup.
Qed.

Lemma sub_directories_nil dir_path names :
  (∀ file, file ∈ names → is_dir w (joinname dir_path file) = false) →
  sub_directories w dir_path names = [].
Proof.
  intros Hflat. unfold sub_directories.
  induction names as [|file names IH]; [done|].
  rewrite filter_cons, decide_False.
  - apply IH. intros ??. apply Hflat. by right.
  - rewrite Hflat by left. done.
Qed.

Lemma sub_directories_first dir_path pre file post :
  (∀ x, x ∈ pre → is_dir w (joinname dir_path x) = false) →
  is_dir w (joinname dir_path file) = true →
  ∃ rest, sub_directories w dir_path (pre ++ file :: post)
          = joinname dir_path file :: rest.
Proof.
  intros Hpre Hfile. unfold sub_directories. rewrite filter_app, fmap_app.
  fold (sub_directories w dir_path pre). rewrite (sub_directories_nil _ _ Hpre).
  rewrite filter_cons, decide_True by done. simpl. eauto.
Qed.

End DiscovererMore.

(** X1. The filter of [get_all_files] only selects: the directories walked
    and the exception raised, if any, are those of the walk that keeps every
    entry, and the result is that walk's result with the entries the filter
    rejects taken out. *)
Theorem get_all_files_filter_only_selects w f dir_path :
  get_all_files w dir_path (Some f)
  = outcome_map (filter (λ p, f p = true))
      (get_all_files w dir_path (Some (λ _, true))).
Proof. apply get_all_files_filter. Qed.

(** X2. When [get_all_files] returns from an absolute path, what it
    returns are the paths below that directory, at any depth, at which
    something exists and for which the filter holds. *)
Theorem get_all_files_absolute_entries w f dir_path l :
  anchored dir_path = true →
  get_all_files w dir_path (Some f) = Returned l →
  ∀ q, q ∈ l ↔
    ∃ rest, rest ≠ [] ∧ q = below dir_path rest
            ∧ is_Some (stat_at w q) ∧ f q = true.
Proof.
  intros Habs Hl.
  assert (is_dir w dir_path = true) as Hdir.
  { apply is_dir_listdir. rewrite get_all_files_unfold in Hl.
    destruct (listdir w dir_path) as [names|e]; [eauto|done]. }
  destruct (get_all_files_absolute w f dir_path Habs Hdir) as (l' & Hl' & Hmem).
  rewrite Hl in Hl'. by injection Hl' as <-.
Qed.

Lemma get_all_files_absolute_entries_witness :
  anchored music = true
  ∧ get_all_files nested music (Some mp3_filter)
    = Returned [absolute ["music"; "sub"; "a.mp3"]]
  ∧ (below music ["sub"; "a.mp3"] ∈ [absolute ["music"; "sub"; "a.mp3"]]
     ↔ ∃ rest, rest ≠ [] ∧ below music ["sub"; "a.mp3"] = below music rest
               ∧ is_Some (stat_at nested (below music ["sub"; "a.mp3"]))
               ∧ mp3_filter (below music ["sub"; "a.mp3"]) = true).
Proof.
  split; [reflexivity|]. split; [reflexivity|].
  apply (get_all_files_absolute_entries nested mp3_filter music); reflexivity.
Defined.

(** X3. In a tree where no directory lists a name twice, the walk from an
    absolute path returns no path twice. *)
Theorem get_all_files_absolute_no_duplicates w f dir_path l :
  unique_tree (fs_root w) = true →
  anchored dir_path = true →
  get_all_files w dir_path (Some f) = Returned l →
  NoDup l.
Proof.
  intros Hu%unique_tree_names. by apply get_all_files_absolute_NoDup.
Qed.

Lemma get_all_files_absolute_no_duplicates_witness :
  unique_tree (fs_root nested) = true
  ∧ anchored music = true
  ∧ get_all_files nested music (Some (λ _, true))
    = Returned [absolute ["music"; "sub"]; absolute ["music"; "sub"; "a.mp3"]]
  ∧ NoDup [absolute ["music"; "sub"]; absolute ["music"; "sub"; "a.mp3"]].
Proof.
  split; [reflexivity|]. split; [reflexivity|]. split; [reflexivity|].
  apply (get_all_files_absolute_no_duplicates nested (λ _, true) music);
    reflexivity.
Defined.

(** X4. From a relative path the recursive call goes to the wrong place:
    for the first sub-directory [file] of [dir_path] it lists [dir_path],
    [dir_path] again and then [file], and when [os.listdir] raises there
    (nothing is there, or the path runs into a regular file) the walk raises
    that exception, whatever the filter. *)
Theorem get_all_files_relative_subdirectory_raises w f dir_path pre file post e :
  anchored dir_path = false →
  ".." ∉ parts dir_path →
  listdir w dir_path = Returned (pre ++ file :: post) →
  (∀ x, x ∈ pre → is_dir w (joinname dir_path x) = false) →
  is_dir w (joinname dir_path file) = true →
  listdir w (below dir_path (parts dir_path ++ [file])) = Raised e →
  get_all_files w dir_path (Some f) = Raised e.
Proof.
  intros Hrel _ Hls Hpre Hfile Hraised.
  rewrite get_all_files_unfold, Hls. simpl. rewrite matching_Some. simpl.
  destruct (sub_directories_first w dir_path pre file post Hpre Hfile) as [rest ->].
  simpl. rewrite full_path_relative by done.
  by rewrite get_all_files_unfold, Hraised.
Qed.

Lemma get_all_files_relative_subdirectory_raises_witness :
  anchored (relative ["music"]) = false
  ∧ listdir blocked (relative ["music"]) = Returned (["music"] ++ "sub" :: [])
  ∧ is_dir blocked (joinname (relative ["music"]) "music") = false
  ∧ is_dir blocked (joinname (relative ["music"]) "sub") = true
  ∧ listdir blocked (relative ["music"; "music"; "sub"]) = Raised not_a_directory
  ∧ get_all_files blocked (relative ["music"]) (Some mp3_filter)
    = Raised not_a_directory.
Proof.
  split; [reflexivity|]. split; [reflexivity|]. split; [reflexivity|].
  split; [reflexivity|]. split; [reflexivity|].
  apply (get_all_files_relative_subdirectory_raises
           blocked mp3_filter (relative ["music"]) ["music"] "sub" []);
    try reflexivity.
  - intros [[=]|Hin%elem_of_nil]%elem_of_cons. done.
  - intros x [->|Hin%elem_of_nil]%elem_of_cons; [reflexivity|done].
Defined.

(** X5. A directory without sub-directories is walked rightly from a
    relative path as from an absolute one: the result is its entries for
    which the filter holds, in the order [os.listdir] gives them. *)
Theorem get_all_files_flat_directory w f dir_path names :
  listdir w dir_path = Returned names →
  (∀ file, file ∈ names → is_dir w (joinname dir_path file) = false) →
  get_all_files w dir_path (Some f)
  = Returned (filter (λ p, f p = true) (joinname dir_path <$> names)).
Proof.
  intros Hls Hflat. rewrite get_all_files_unfold, Hls. simpl.
  rewrite matching_Some. simpl. by rewrite sub_directories_nil.
Qed.

Lemma get_all_files_flat_directory_witness :
  listdir shelf (relative ["music"]) = Returned ["a.mp3"; "b.mp3"]
  ∧ get_all_files shelf (relative ["music"]) (Some mp3_filter)
    = Returned [relative ["music"; "a.mp3"]; relative ["music"; "b.mp3"]].
Proof.
  split; [reflexivity|].
  apply (get_all_files_flat_directory shelf mp3_filter (relative ["music"])
           ["a.mp3"; "b.mp3"]); [reflexivity|].
  intros file [->|[->|Hin%elem_of_nil]%elem_of_cons]%elem_of_cons;
    [reflexivity..|done].
Defined.

(** ** Tag fixer *)

Section FixerMore.

Lemma fix_tags_present t :
  is_Some (t !! ALBUM_ARTIST) → fix_tags t = t.
Proof. intros H. unfold fix_tags. by rewrite bool_decide_eq_true_2. Qed.

Lemma fix_tags_absent t :
  t !! ALBUM_ARTIST = None →
  fix_tags t = <[ALBUM_ARTIST := default "" (t !! ARTIST)]> t.
Proof.
  intros H. unfold fix_tags. rewrite bool_decide_eq_false_2; [done|].
  rewrite H. by intros [? ?].
Qed.

Lemma fix_object_present f : contains ALBUM_ARTIST f = true → fix_object f = f.
Proof.
  intros H%bool_decide_eq_true. unfold fix_object.
  rewrite fix_tags_present by done. by destruct f.
Qed.

Lemma fix_object_absent f :
  contains ALBUM_ARTIST f = false → fix_object f = fixed f.
Proof.
  intros H%bool_decide_eq_false. unfold fix_object, fixed, setitem, getitem.
  rewrite fix_tags_absent; [done|]. by apply eq_None_not_Some.
Qed.

Lemma fix_tags_other t key :
  key ≠ ALBUM_ARTIST → fix_tags t !! key = t !! key.
Proof.
  intros Hne. unfold fix_tags. case_bool_decide; [done|].
  by rewrite lookup_insert_ne.
Qed.

Lemma fix_tags_album_artist t : is_Some (fix_tags t !! ALBUM_ARTIST).
Proof.
  unfold fix_tags. case_bool_decide; [done|]. rewrite lookup_insert_eq. eauto.
Qed.

Lemma fix_song_Returned_inv f n st song' n' st' :
  fix_song (Some f) n st = (Returned (song', n'), st') →
  song' = Some (fix_object f)
  ∧ n' = n + (if contains ALBUM_ARTIST f then 0 else 1)
  ∧ stdout st'
    = stdout st ++ (if contains ALBUM_ARTIST f then []
                    else [FixedMissingTag (getitem (fixed f) TITLE)]).
Proof.
  intros Hs. destruct (contains ALBUM_ARTIST f) eqn:Hc.
  - rewrite fix_song_present in Hs by done. injection Hs as <- <- <-.
    rewrite fix_object_present, app_nil_r by done. split; [done|]. split; [lia|done].
  - destruct (fix_song_absent_inv _ _ _ _ _ Hc Hs) as [t Ht].
    rewrite (fix_song_absent _ _ _ t Hc Ht) in Hs. injection Hs as <- <- <-.
    rewrite fix_object_absent by done. split; [done|]. split; [lia|done].
Qed.

(** The loop, when it returns: the objects, the count and the output. *)
Lemma fix_loop_Returned_spec songs n st r n' st' :
  fix_loop songs n st = (Returned (r, n'), st') →
  r = (λ song : option AudioFile, fix_object <$> song) <$> songs
  ∧ n' = n + length (filter (λ song, needs_fix song = true) songs)
  ∧ stdout st' = stdout st ++ fixed_lines songs.
Proof.
  revert n st r. induction songs as [|s songs IH]; intros n st r H.
  - injection H as <- <- <-. simpl. rewrite app_nil_r. split; [done|]. split; [lia|done].
  - apply fix_loop_cons_inv in H as (s' & n1 & st1 & rest' & Hs & Hl & ->).
    destruct s as [f|]; [|done].
    apply fix_song_Returned_inv in Hs as (-> & -> & Hout).
    destruct (IH _ _ _ Hl) as (-> & -> & Hout'). clear IH.
    rewrite Hout', Hout, <- app_assoc, filter_cons.
    unfold fixed_lines. simpl.
    destruct (contains ALBUM_ARTIST f); simpl; repeat split; try done; lia.
Qed.

Lemma fixed_lines_length songs :
  length (fixed_lines songs)
  = length (filter (λ song, needs_fix song = true) songs).
Proof.
  induction songs as [|song songs IH]; [done|].
  unfold fixed_lines in *. rewrite bind_cons, length_app, IH, filter_cons.
  destruct song as [f|]; simpl; [|done].
  by destruct (contains ALBUM_ARTIST f).
Qed.

Lemma fix_loop_app songs rest n st pre n1 st1 :
  fix_loop songs n st = (Returned (pre, n1), st1) →
  fix_loop (songs ++ rest) n st
  = match fix_loop rest n1 st1 with
    | (Returned (rest', n2), st2) => (Returned (pre ++ rest', n2), st2)
    | (Raised e, st2) => (Raised e, st2)
    end.
Proof.
  revert n st pre. induction songs as [|s songs IH]; intros n st pre H.
  - injection H as <- <- <-. simpl.
    by destruct (fix_loop rest n st) as [[[rest' n2]|e] st2].
  - apply fix_loop_cons_inv in H as (s' & n0 & st0 & songs' & Hs & Hl & ->).
    rewrite <- app_comm_cons. erewrite fix_loop_cons by done.
    rewrite (IH _ _ _ Hl).
    by destruct (fix_loop rest n1 st1) as [[[rest' n2]|e] st2].
Qed.

Lemma location_cwd w w' q : cwd w' = cwd w → location w' q = location w q.
Proof. unfold location. by intros ->. Qed.

Lemma stat_at_same_place w q p :
  location w q = location w p → stat_at w q = stat_at w p.
Proof. unfold stat_at. by intros ->. Qed.

(** What one pass does to the files, whether it returns or raises. *)
Lemma fix_song_world song n st r st' :
  fix_song song n st = (r, st') →
  world st' = world st
  ∨ ∃ f t, song = Some f ∧ contains ALBUM_ARTIST f = false
           ∧ stat_at (world st) (filename f) = Some (KFile (Audio t true))
           ∧ world st'
             = write_file (world st) (filename f) (Audio (tags (fixed f)) true).
Proof.
  destruct song as [f|]; simpl; [|intros [= _ <-]; by left].
  destruct (contains ALBUM_ARTIST f) eqn:Hc; simpl; [intros [= _ <-]; by left|].
  unfold set_album_artist, save. run.
  destruct (stat_at (world st) (filename f)) as [[[t [|]|e]|names]|] eqn:Hst;
    intros [= _ <-]; simpl; [right|by left..].
  by exists f, t.
Qed.

Lemma writes_only_refl songs w : writes_only songs w w.
Proof. split; [done|]. intros q. by left. Qed.

Lemma writes_only_step f t songs w :
  contains ALBUM_ARTIST f = false →
  stat_at w (filename f) = Some (KFile (Audio t true)) →
  writes_only (Some f :: songs) w
    (write_file w (filename f) (Audio (tags (fixed f)) true)).
Proof.
  intros Hc Hst. split; [done|]. intros q.
  rewrite stat_at_write_file by by eapply stat_at_KFile.
  case_decide as Hq; [right|by left].
  exists f, t. repeat split; try done; [left|].
  by rewrite (stat_at_same_place _ _ _ Hq).
Qed.

Lemma writes_only_trans s songs w1 w2 w3 :
  writes_only [s] w1 w2 → writes_only songs w2 w3 →
  writes_only (s :: songs) w1 w3.
Proof.
  intros [Hc1 H1] [Hc2 H2]. split; [congruence|]. intros q.
  destruct (H2 q) as [Heq|(f & t & Hin & Hc & Hloc & Hst & Hst')].
  - rewrite Heq. destruct (H1 q) as [?|(f & t & Hin & ?)]; [by left|right].
    exists f, t. apply list_elem_of_singleton in Hin as ->. split; [left|done].
  - right. rewrite !(location_cwd w1 w2) in Hloc by done.
    destruct (H1 q) as [Heq|(f0 & t0 & Hin0 & Hc0 & Hloc0 & Hst0 & Hst0')].
    + exists f, t. rewrite <- Heq. repeat split; try done. by right.
    + exists f, t0. repeat split; try done. by right.
Qed.

(** The loop writes only the files of the songs it fixes, whether it
    returns or raises. *)
Lemma fix_loop_writes_only songs n st r st' :
  fix_loop songs n st = (r, st') → writes_only songs (world st) (world st').
Proof.
  revert n st r st'. induction songs as [|s songs IH]; intros n st r st'.
  - intros [= _ <-]. apply writes_only_refl.
  - simpl. run.
    destruct (fix_song s n st) as [[[s' n1]|e] st1] eqn:Hs.
    + assert (writes_only [s] (world st) (world st1)) as H1.
      { apply fix_song_world in Hs as [->|(f & t & -> & Hc & Hst & ->)];
          [apply writes_only_refl|by eapply writes_only_step]. }
      destruct (fix_loop songs n1 st1) as [[[rest' n2]|e] st2] eqn:Hl;
        intros [= _ <-]; eapply writes_only_trans; try done; by eapply IH.
    + intros [= _ <-].
      apply fix_song_world in Hs as [->|(f & t & -> & Hc & Hst & ->)];
        [apply writes_only_refl|by eapply writes_only_step].
Qed.

Lemma writes_only_listdir songs w w' q :
  writes_only songs w w' → listdir w' q = listdir w q.
Proof.
  intros [Hcwd H]. apply listdir_same_kinds; [done|]. intros q'.
  destruct (H q') as [->|(f & t & _ & _ & _ & -> & ->)]; [by left|right; eauto].
Qed.

Lemma writes_only_is_dir songs w w' q :
  writes_only songs w w' → is_dir w' q = is_dir w q.
Proof.
  intros [_ H]. unfold is_dir.
  destruct (H q) as [->|(f & t & _ & _ & _ & -> & ->)]; done.
Qed.

End FixerMore.

Section SetAlbumArtist.

Lemma replace_first_ext x g h es :
  (∀ c, assoc x es = Some c → g c = h c) →
  replace_first x g es = replace_first x h es.
Proof.
  induction es as [|[y c] es IH]; simpl; [done|].
  destruct (String.eqb x y); intros Hgh.
  - by rewrite Hgh.
  - by rewrite IH.
Qed.

Lemma replace_first_twice x g es :
  replace_first x g (replace_first x g es) = replace_first x (λ c, g (g c)) es.
Proof.
  induction es as [|[y c] es IH]; simpl; [done|].
  destruct (String.eqb x y) eqn:Hxy; simpl; rewrite Hxy; [done|]. by rewrite IH.
Qed.

(** Writing the same contents a second time changes nothing. *)
Lemma write_path_twice n ps d :
  write_path (write_path n ps d) ps d = write_path n ps d.
Proof.
  revert n. induction ps as [|x ps IH]; intros n; simpl.
  - by destruct n.
  - destruct n as [d0|es]; [done|]. simpl. f_equal.
    rewrite replace_first_twice. apply replace_first_ext. intros c _. apply IH.
Qed.

Lemma write_file_twice w p d :
  write_file (write_file w p d) p d = write_file w p d.
Proof. unfold write_file. simpl. by rewrite write_path_twice. Qed.

Lemma set_album_artist_inv f st f' st' :
  set_album_artist f st = (Returned f', st') →
  f' = fixed f
  ∧ (∃ t, stat_at (world st) (filename f) = Some (KFile (Audio t true)))
  ∧ st' = mkState (write_file (world st) (filename f) (Audio (tags (fixed f)) true))
            (stdout st).
Proof.
  unfold set_album_artist.
  intros (u & st1 & Hs & [= <- <-])%bind_inv.
  apply save_inv in Hs as [Ht ->]. done.
Qed.

(** A failed [save] leaves the state as it was. *)
Lemma set_album_artist_Raised f st e st' :
  set_album_artist f st = (Raised e, st') → st' = st.
Proof.
  unfold set_album_artist, save. run.
  by destruct (stat_at (world st) (filename f)) as [[[t [|]|e0]|names]|];
    intros [= _ <-].
Qed.

End SetAlbumArtist.

(** X6. [set_album_artist] has no test of its own for the album artist:
    for a song that has an artist, whatever album artist it had, it has the
    artist as album artist afterwards and every other tag as before; nothing
    is printed, the file loaded again gives the object, and a second call
    changes neither the object nor the files. *)
Theorem set_album_artist_overwrites_once f st f' st' :
  contains ARTIST f = true →
  set_album_artist f st = (Returned f', st') →
  tags f' !! ALBUM_ARTIST = tags f !! ARTIST
  ∧ (∀ key, key ≠ ALBUM_ARTIST → tags f' !! key = tags f !! key)
  ∧ stdout st' = stdout st
  ∧ load_file (world st') (filename f) = Returned f'
  ∧ set_album_artist f' st' = (Returned f', st').
Proof.
  intros [v Hv]%bool_decide_eq_true (-> & [t Ht] & ->)%set_album_artist_inv.
  assert (stat_at (write_file (world st) (filename f) (Audio (tags (fixed f)) true))
            (filename f)
          = Some (KFile (Audio (tags (fixed f)) true))) as Hst.
  { rewrite stat_at_write_file by by eapply stat_at_KFile. by rewrite decide_True. }
  split.
  { unfold fixed, setitem, getitem. simpl. by rewrite lookup_insert_eq, Hv. }
  split; [intros key Hne; by apply lookup_insert_ne|].
  split; [done|]. split.
  { unfold load_file. cbn [world]. by rewrite Hst. }
  assert (fixed (fixed f) = fixed f) as Hsame.
  { unfold fixed, setitem, getitem. simpl. f_equal.
    rewrite lookup_insert_ne by done. apply insert_insert_eq. }
  unfold set_album_artist. fold (fixed (fixed f)). rewrite Hsame.
  erewrite bind_Returned by by eapply save_Returned.
  simpl. by rewrite write_file_twice.
Qed.

Lemma set_album_artist_overwrites_once_witness :
  let song := mkAudioFile (absolute ["music"; "b.mp3"]) compiled in
  let run := set_album_artist song (mkState shelf []) in
  contains ARTIST song = true
  ∧ run.1 = Returned (setitem song "album_artist" "Bob")
  ∧ tags (setitem song "album_artist" "Bob") !! ALBUM_ARTIST = Some "Bob".
Proof.
  intros song run. split; [reflexivity|]. split; [reflexivity|].
  apply (set_album_artist_overwrites_once song (mkState shelf [])
           (setitem song "album_artist" "Bob") run.2);
    reflexivity.
Defined.

(** X7. After a run of [fix_album_artist_tag] that returns, the list is as
    long as it was and holds for every song an object of the same file, with
    an album artist and with every other tag as the song had it. *)
Theorem fix_album_artist_tag_changes_only_album_artist songs st songs' st' :
  fix_album_artist_tag songs st = (Returned songs', st') →
  length songs' = length songs
  ∧ ∀ i f, songs !! i = Some (Some f) →
      ∃ f', songs' !! i = Some (Some f')
            ∧ filename f' = filename f
            ∧ is_Some (tags f' !! ALBUM_ARTIST)
            ∧ ∀ key, key ≠ ALBUM_ARTIST → tags f' !! key = tags f !! key.
Proof.
  intros (n & st1 & Hloop & ->)%fix_album_artist_tag_inv.
  apply fix_loop_Returned_spec in Hloop as (-> & _ & _).
  split; [by rewrite length_fmap|].
  intros i f Hi. exists (fix_object f). rewrite list_lookup_fmap, Hi.
  split; [done|]. split; [done|]. split; [apply fix_tags_album_artist|].
  intros key Hne. by apply fix_tags_other.
Qed.

Lemma fix_album_artist_tag_changes_only_album_artist_witness :
  let song := mkAudioFile (absolute ["music"; "a.mp3"]) untagged in
  let run := fix_album_artist_tag [Some song] (mkState shelf []) in
  run.1 = Returned [Some (fixed song)]
  ∧ ∃ f', [Some (fixed song)] !! 0 = Some (Some f')
          ∧ tags f' !! TITLE = tags song !! TITLE.
Proof.
  intros song run. split; [reflexivity|].
  destruct (fix_album_artist_tag_changes_only_album_artist
              [Some song] (mkState shelf []) [Some (fixed song)] run.2)
    as (_ & Hi); [reflexivity|].
  destruct (Hi 0 song) as (f' & Hf' & _ & _ & Hkeys); [reflexivity|].
  exists f'. split; [exact Hf'|]. apply Hkeys. discriminate.
Defined.

(** X8. A run of [fix_album_artist_tag] that returns has printed one line
    for every song without album artist, in the order of the list, and then
    the count, which is the number of those songs. *)
Theorem fix_album_artist_tag_counts_fixed_songs songs st songs' st' :
  fix_album_artist_tag songs st = (Returned songs', st') →
  stdout st'
  = stdout st ++ fixed_lines songs ++ [FinishedFixing (length (fixed_lines songs))]
  ∧ length (fixed_lines songs)
    = length (filter (λ song, needs_fix song = true) songs).
Proof.
  intros (n & st1 & Hloop & ->)%fix_album_artist_tag_inv.
  apply fix_loop_Returned_spec in Hloop as (_ & -> & Hout).
  rewrite fixed_lines_length. split; [|done].
  simpl. by rewrite Hout, <- app_assoc.
Qed.

Lemma fix_album_artist_tag_counts_fixed_songs_witness :
  let songs := [Some (mkAudioFile (absolute ["music"; "a.mp3"]) untagged);
                Some (mkAudioFile (absolute ["music"; "b.mp3"]) tagged)] in
  let run := fix_album_artist_tag songs (mkState shelf []) in
  run.1 = Returned [Some (fixed (mkAudioFile (absolute ["music"; "a.mp3"]) untagged));
                    Some (mkAudioFile (absolute ["music"; "b.mp3"]) tagged)]
  ∧ stdout run.2 = [FixedMissingTag "A"; FinishedFixing 1].
Proof.
  intros songs run. split; [reflexivity|].
  destruct (fix_album_artist_tag_counts_fixed_songs songs (mkState shelf [])
              [Some (fixed (mkAudioFile (absolute ["music"; "a.mp3"]) untagged));
               Some (mkAudioFile (absolute ["music"; "b.mp3"]) tagged)] run.2)
    as [Hout _]; [reflexivity|].
  exact Hout.
Defined.

Section FixerRun.

Lemma fix_album_artist_tag_world songs st :
  world (fix_album_artist_tag songs st).2 = world (fix_loop songs 0 st).2.
Proof.
  unfold fix_album_artist_tag. run.
  by destruct (fix_loop songs 0 st) as [[[r n]|e] st1].
Qed.

End FixerRun.

(** X9. Whether it returns or raises, [fix_album_artist_tag] creates,
    removes and renames nothing: the working directory, every directory
    listing and what is a directory stay, and so does whatever is at a path
    that is not the file of a song without album artist. *)
Theorem fix_album_artist_tag_writes_only_fixed_songs songs st :
  let st' := (fix_album_artist_tag songs st).2 in
  cwd (world st') = cwd (world st)
  ∧ (∀ q, listdir (world st') q = listdir (world st) q)
  ∧ (∀ q, is_dir (world st') q = is_dir (world st) q)
  ∧ ∀ q,
      (∀ f, Some f ∈ songs → contains ALBUM_ARTIST f = false →
            location (world st) q ≠ location (world st) (filename f)) →
      stat_at (world st') q = stat_at (world st) q.
Proof.
  intros st'. subst st'. rewrite fix_album_artist_tag_world.
  destruct (fix_loop songs 0 st) as [r st1] eqn:Hloop.
  pose proof (fix_loop_writes_only _ _ _ _ _ Hloop) as Hw. simpl.
  split; [apply Hw|].
  split; [intros q; by eapply writes_only_listdir|].
  split; [intros q; by eapply writes_only_is_dir|].
  intros q Hq. destruct Hw as [_ Hw].
  destruct (Hw q) as [?|(f & t & Hin & Hc & Hloc & _)]; [done|].
  by destruct (Hq f Hin Hc).
Qed.

Lemma fix_album_artist_tag_writes_only_fixed_songs_witness :
  let songs := [Some (mkAudioFile (absolute ["music"; "a.mp3"]) untagged)] in
  let st' := (fix_album_artist_tag songs (mkState shelf [])).2 in
  stat_at (world st') (absolute ["music"; "a.mp3"])
  = Some (KFile (Audio (<["album_artist" := "Bob"]> untagged) true))
  ∧ stat_at (world st') (absolute ["music"; "b.mp3"])
    = stat_at shelf (absolute ["music"; "b.mp3"]).
Proof.
  intros songs st'. split; [reflexivity|].
  destruct (fix_album_artist_tag_writes_only_fixed_songs songs (mkState shelf []))
    as (_ & _ & _ & Hframe).
  apply Hframe.
  intros f [[= ->]|Hin%elem_of_nil]%elem_of_cons _; [discriminate|done].
Defined.

(** X10. [fix_album_artist_tag] does not catch what [set_album_artist]
    raises.  When the songs before a song without album artist go through
    and the call for that song raises, the run ends with that exception: the
    songs before stay fixed and saved and their lines printed, the songs
    after are not looked at, and the count is not printed. *)
Theorem fix_album_artist_tag_save_error_ends_run
    pre f post st pre' st0 out k e st_e :
  fix_album_artist_tag pre st = (Returned pre', st0) →
  stdout st0 = out ++ [FinishedFixing k] →
  contains ALBUM_ARTIST f = false →
  set_album_artist f (mkState (world st0) out) = (Raised e, st_e) →
  fix_album_artist_tag (pre ++ Some f :: post) st
  = (Raised e, mkState (world st0) out).
Proof.
  intros (n & st1 & Hloop & ->)%fix_album_artist_tag_inv Hout Hc Hset.
  destruct st1 as [w1 out1]. simpl in Hout, Hset |- *.
  apply app_inj_tail in Hout as [<- _].
  pose proof (set_album_artist_Raised _ _ _ _ Hset) as ->.
  unfold fix_album_artist_tag. run. rewrite (fix_loop_app _ _ _ _ _ _ _ Hloop).
  simpl. run. rewrite Hc. simpl. run. by rewrite Hset.
Qed.

Lemma fix_album_artist_tag_save_error_ends_run_witness :
  let c := mkAudioFile (absolute ["music"; "c.mp3"]) untagged in
  let a := mkAudioFile (absolute ["music"; "a.mp3"]) untagged in
  let before := fix_album_artist_tag [Some c] (mkState read_only []) in
  before.1 = Returned [Some (fixed c)]
  ∧ stdout before.2 = [FixedMissingTag "A"] ++ [FinishedFixing 1]
  ∧ contains ALBUM_ARTIST a = false
  ∧ set_album_artist a (mkState (world before.2) [FixedMissingTag "A"])
    = (Raised permission_denied, mkState (world before.2) [FixedMissingTag "A"])
  ∧ fix_album_artist_tag ([Some c] ++ Some a :: [Some c]) (mkState read_only [])
    = (Raised permission_denied, mkState (world before.2) [FixedMissingTag "A"]).
Proof.
  intros c a before.
  split; [reflexivity|]. split; [reflexivity|]. split; [reflexivity|].
  split; [reflexivity|].
  apply (fix_album_artist_tag_save_error_ends_run
           [Some c] a [Some c] (mkState read_only []) [Some (fixed c)] before.2
           [FixedMissingTag "A"] 1 permission_denied
           (mkState (world before.2) [FixedMissingTag "A"]));
    reflexivity.
Defined.

(** ** Song loader *)

Section LoaderMore.

Lemma load_file_Returned w p f :
  load_file w p = Returned f →
  filename f = p ∧ ∃ wr, stat_at w p = Some (KFile (Audio (tags f) wr)).
Proof.
  unfold load_file. destruct (stat_at w p) as [[[t wr|e]|names]|]; try done.
  intros [= <-]. eauto.
Qed.

Lemma load_lines_length w files :
  length (load_lines w files)
  = length (filter (λ song, song = None) (loaded w <$> files)).
Proof.
  induction files as [|p files IH]; [done|].
  unfold load_lines in *. rewrite bind_cons, length_app, IH, fmap_cons, filter_cons.
  destruct (load_file w p) as [f|e] eqn:Hload.
  - assert (loaded w p = Some f) as -> by (unfold loaded; by rewrite Hload).
    by rewrite decide_False.
  - assert (loaded w p = None) as -> by (unfold loaded; by rewrite Hload).
    by rewrite decide_True.
Qed.

Lemma elem_of_load_lines w files path e :
  path ∈ files → load_file w path = Raised e →
  except_line e path ∈ load_lines w files.
Proof.
  intros Hin Hload. unfold load_lines. apply list_elem_of_bind.
  exists path. rewrite Hload. split; [left|done].
Qed.

Lemma load_lines_nil w files :
  (∀ p, p ∈ files → is_Some (loaded w p)) → load_lines w files = [].
Proof.
  induction files as [|p files IH]; intros Hall; [done|].
  unfold load_lines in *. rewrite bind_cons, IH.
  - destruct (Hall p) as [f Hf]; [left|]. unfold loaded in Hf.
    by destruct (load_file w p).
  - intros ??. apply Hall. by right.
Qed.

End LoaderMore.

(** X11. [load_all_songs] leaves the files alone and prints one line for
    every path whose load raised, in the order of the paths, and nothing
    else: there are as many lines as [None] in its result.  A song in the
    result comes from one of the paths and has the tags the file has. *)
Theorem load_all_songs_prints_a_line_per_failure files st :
  let run := load_all_songs files st in
  world run.2 = world st
  ∧ stdout run.2 = stdout st ++ load_lines (world st) files
  ∧ ∃ songs,
      run.1 = Returned songs
      ∧ length (load_lines (world st) files)
        = length (filter (λ song, song = None) songs)
      ∧ ∀ f, Some f ∈ songs →
          filename f ∈ files
          ∧ ∃ wr, stat_at (world st) (filename f)
                  = Some (KFile (Audio (tags f) wr)).
Proof.
  intros run. subst run. rewrite load_all_songs_spec. simpl.
  split; [done|]. split; [done|].
  exists (loaded (world st) <$> files). split; [done|].
  split; [apply load_lines_length|].
  intros f (p & Hf & Hin)%list_elem_of_fmap. unfold loaded in Hf.
  destruct (load_file (world st) p) as [f'|e] eqn:Hload; [|done].
  injection Hf as ->. by apply load_file_Returned in Hload as [-> ?].
Qed.

Lemma load_all_songs_prints_a_line_per_failure_witness :
  let files := [absolute ["music"; "notes.mp3"]; absolute ["music"; "a.mp3"]] in
  let run := load_all_songs files (mkState mislabelled []) in
  stdout run.2 = [NotMusicFile (absolute ["music"; "notes.mp3"])]
  ∧ world run.2 = mislabelled.
Proof.
  intros files run.
  destruct (load_all_songs_prints_a_line_per_failure files (mkState mislabelled []))
    as (Hw & Hout & _).
  split; [exact Hout|exact Hw].
Defined.

(** ** The whole run *)

Section MainMore.

(** The loop over songs that were loaded from the world [w0]: every file it
    went through ends as [fixed_at] says, and nothing else is written. *)
Lemma fix_loop_fixed_at w0 songs n st r st' :
  (∀ f, Some f ∈ songs →
     ∃ wr, stat_at w0 (filename f) = Some (KFile (Audio (tags f) wr))) →
  cwd (world st) = cwd w0 →
  (∀ q, stat_at (world st) q = stat_at w0 q
        ∨ stat_at (world st) q = fixed_at w0 q) →
  fix_loop songs n st = (Returned r, st') →
  (∀ q, stat_at (world st') q = stat_at (world st) q
        ∨ stat_at (world st') q = fixed_at w0 q)
  ∧ cwd (world st') = cwd w0
  ∧ ∀ f, Some f ∈ songs → stat_at (world st') (filename f) = fixed_at w0 (filename f).
Proof.
  revert n st r. induction songs as [|s songs IH]; intros n st [r n'] Hdisk Hcwd Hreach H.
  - injection H as <- <- <-. split; [by left|]. split; [done|].
    by intros f ?%elem_of_nil.
  - apply fix_loop_cons_inv in H as (s' & n1 & st1 & rest' & Hs & Hl & ->).
    destruct s as [f|]; [|done].
    destruct (Hdisk f) as [wr Hf0]; [left|].
    assert (fixed_at w0 (filename f) = Some (KFile (Audio (fix_tags (tags f)) wr)))
      as Hfix by (unfold fixed_at; by rewrite Hf0).
    assert ((∀ q, stat_at (world st1) q = stat_at (world st) q
                  ∨ stat_at (world st1) q = fixed_at w0 q)
            ∧ cwd (world st1) = cwd w0
            ∧ stat_at (world st1) (filename f) = fixed_at w0 (filename f))
      as (Hstep & Hcwd1 & Hdone).
    { destruct (contains ALBUM_ARTIST f) eqn:Hc.
      - rewrite fix_song_present in Hs by done. injection Hs as <- <- <-.
        split; [by left|]. split; [done|].
        destruct (Hreach (filename f)) as [-> | ->]; [|done].
        rewrite Hfix, Hf0, fix_tags_present; [done|]. by apply bool_decide_eq_true in Hc.
      - destruct (fix_song_absent_inv _ _ _ _ _ Hc Hs) as [t Ht].
        rewrite (fix_song_absent _ _ _ t Hc Ht) in Hs. injection Hs as <- <- <-.
        cbn [world].
        assert (wr = true) as ->.
        { destruct (Hreach (filename f)) as [Heq|Heq]; rewrite Ht in Heq;
            [rewrite Hf0 in Heq|rewrite Hfix in Heq]; by injection Heq. }
        assert (tags (fixed f) = fix_tags (tags f)) as Htags
          by by rewrite <- fix_object_absent.
        split; [|split; [done|]].
        + intros q. rewrite stat_at_write_file by by eapply stat_at_KFile.
          case_decide as Hq; [right|by left].
          rewrite !(location_cwd w0 (world st)) in Hq by done.
          unfold fixed_at at 1. rewrite (stat_at_same_place _ _ _ Hq), Hf0.
          by rewrite <- Htags.
        + rewrite stat_at_write_file by by eapply stat_at_KFile.
          by rewrite decide_True, Hfix, <- Htags. }
    destruct (IH n1 st1 (rest', n')) as (Hrest & Hcwd' & Hall); try done.
    { intros ??. apply Hdisk. by right. }
    { intros q. destruct (Hstep q) as [-> | ->]; [apply Hreach|by right]. }
    split; [|split; [done|]].
    + intros q. destruct (Hrest q) as [-> | ->]; [apply Hstep|by right].
    + intros f' [[= ->]|Hin]%elem_of_cons; [|by apply Hall].
      destruct (Hrest (filename f)) as [-> | ->]; done.
Qed.

Lemma main_Returned_inv dir_path st st' files :
  main dir_path st = (Returned tt, st') →
  get_all_files (world st) dir_path (Some mp3_filter) = Returned files →
  ∃ r n st1,
    fix_loop (loaded (world st) <$> files) 0
      (mkState (world st)
         ((stdout st ++ load_lines (world st) files)
          ++ [FinishedScanning (length files)]))
    = (Returned (r, n), st1)
    ∧ st' = mkState (world st1) (stdout st1 ++ [FinishedFixing n])
    ∧ ∀ p, p ∈ files → ∃ f, load_file (world st) p = Returned f.
Proof.
  intros Hmain Hfiles. rewrite main_run, Hfiles in Hmain. simpl in Hmain.
  destruct (fix_loop _ _ _) as [[[r n]|e] st1] eqn:Hloop; [|done].
  injection Hmain as <-. exists r, n, st1. split; [done|]. split; [done|].
  intros p Hin.
  assert (loaded (world st) p ∈ loaded (world st) <$> files) as Hin'
    by by apply list_elem_of_fmap_2.
  destruct (fix_loop_all_Some _ _ _ _ _ _ Hloop Hin') as [f Hf].
  unfold loaded in Hf. destruct (load_file (world st) p); [eauto|done].
Qed.

End MainMore.

(** X12. Given a path (without [..]) at which there is no directory,
    [main] raises what [os.listdir] raises there, [NotADirectoryError] or
    [FileNotFoundError], prints nothing and changes nothing. *)
Theorem main_on_what_is_no_directory dir_path st :
  ".." ∉ parts dir_path →
  is_dir (world st) dir_path = false →
  ∃ e,
    listdir (world st) dir_path = Raised e
    ∧ main dir_path st = (Raised e, st)
    ∧ (e = not_a_directory ∨ e = no_such_file).
Proof.
  intros _ Hdir. rewrite main_run, get_all_files_unfold.
  unfold is_dir in Hdir. unfold listdir.
  destruct (stat_at (world st) dir_path) as [[d|names]|]; [|done|].
  - exists not_a_directory. eauto.
  - destruct (through_file _ _); [exists not_a_directory|exists no_such_file]; eauto.
Qed.

Lemma main_on_what_is_no_directory_witness :
  is_dir shelf (absolute ["music"; "a.mp3"; "x"]) = false
  ∧ ∃ e, listdir shelf (absolute ["music"; "a.mp3"; "x"]) = Raised e
         ∧ main (absolute ["music"; "a.mp3"; "x"]) (mkState shelf [])
           = (Raised e, mkState shelf [])
         ∧ Raised e = @Raised unit not_a_directory.
Proof.
  split; [reflexivity|].
  destruct (main_on_what_is_no_directory
              (absolute ["music"; "a.mp3"; "x"]) (mkState shelf []))
    as (e & Hls & Hmain & _); [|reflexivity|].
  - intros [[=]|[[=]|[[=]|Hin%elem_of_nil]%elem_of_cons]%elem_of_cons]%elem_of_cons.
    done.
  - exists e. split; [exact Hls|]. split; [exact Hmain|].
    injection Hls as <-. reflexivity.
Defined.

(** X13. What a run of [main] that returns has done to the files, when
    every song found without album artist had an artist.  Every path it
    found held an audio file and holds it still, with the same tags when they
    had an album artist and with the artist added as album artist when not;
    whatever is at a path that is none of those found is as it was. *)
Theorem main_fixes_the_files_found dir_path st st' files :
  main dir_path st = (Returned tt, st') →
  get_all_files (world st) dir_path (Some mp3_filter) = Returned files →
  artists_known (world st) files →
  (∀ p, p ∈ files →
     ∃ t wr, stat_at (world st) p = Some (KFile (Audio t wr))
             ∧ stat_at (world st') p = Some (KFile (Audio (fix_tags t) wr)))
  ∧ (∀ q, (∀ p, p ∈ files → location (world st) q ≠ location (world st) p) →
          stat_at (world st') q = stat_at (world st) q).
Proof.
  intros Hmain Hfiles _.
  destruct (main_Returned_inv _ _ _ _ Hmain Hfiles)
    as (r & n & st1 & Hloop & -> & Hloads).
  assert (∀ f, Some f ∈ loaded (world st) <$> files →
            filename f ∈ files
            ∧ ∃ wr, stat_at (world st) (filename f)
                    = Some (KFile (Audio (tags f) wr))) as Hsongs.
  { intros f (p & Hf & Hin)%list_elem_of_fmap. unfold loaded in Hf.
    destruct (load_file (world st) p) as [f'|e] eqn:Hload; [|done].
    injection Hf as ->. by apply load_file_Returned in Hload as [-> ?]. }
  split.
  - intros p Hin. destruct (Hloads p Hin) as [f Hload].
    pose proof Hload as [<- [wr Hst]]%load_file_Returned.
    exists (tags f), wr. split; [done|]. cbn [world].
    destruct (fix_loop_fixed_at (world st) (loaded (world st) <$> files) 0
                (mkState (world st)
                   ((stdout st ++ load_lines (world st) files)
                    ++ [FinishedScanning (length files)]))
                (r, n) st1)
      as (_ & _ & Hall);
      [intros f' Hf'; apply (Hsongs _ Hf')|done|by left|done|].
    rewrite (Hall f).
    + unfold fixed_at. by rewrite Hst.
    + apply list_elem_of_fmap. exists (filename f). split; [|done].
      unfold loaded. by rewrite Hload.
  - intros q Hq. cbn [world].
    destruct (fix_loop_writes_only _ _ _ _ _ Hloop) as [_ Hw]. simpl in Hw.
    destruct (Hw q) as [?|(f & t & Hin & _ & Hloc & _)]; [done|].
    destruct (Hsongs f Hin) as [Hin' _]. by destruct (Hq _ Hin').
Qed.

Lemma main_fixes_the_files_found_witness :
  let run := main music (mkState shelf []) in
  run.1 = Returned tt
  ∧ get_all_files shelf music (Some mp3_filter)
    = Returned [absolute ["music"; "a.mp3"]; absolute ["music"; "b.mp3"]]
  ∧ ∃ t wr, stat_at shelf (absolute ["music"; "a.mp3"]) = Some (KFile (Audio t wr))
            ∧ stat_at (world run.2) (absolute ["music"; "a.mp3"])
              = Some (KFile (Audio (fix_tags t) wr)).
Proof.
  intros run. split; [reflexivity|]. split; [reflexivity|].
  destruct (main_fixes_the_files_found music (mkState shelf []) run.2
              [absolute ["music"; "a.mp3"]; absolute ["music"; "b.mp3"]])
    as [Hfound _]; [reflexivity..| |].
  - intros p t wr [->|[->|Hin%elem_of_nil]%elem_of_cons]%elem_of_cons Hst Hnone;
      [|exfalso|done]; vm_compute in Hst; injection Hst as <- <-;
      [eexists; reflexivity|discriminate Hnone].
  - apply Hfound. left.
Defined.

(** X14. What a run of [main] that returns has printed: no line of a
    failed load, the number of paths found, one line for every song found
    without album artist and the number of those lines, which is at most the
    number of paths found. *)
Theorem main_prints_found_and_fixed dir_path st st' files :
  main dir_path st = (Returned tt, st') →
  get_all_files (world st) dir_path (Some mp3_filter) = Returned files →
  let songs := loaded (world st) <$> files in
  load_lines (world st) files = []
  ∧ stdout st'
    = stdout st ++ [FinishedScanning (length files)] ++ fixed_lines songs
      ++ [FinishedFixing (length (fixed_lines songs))]
  ∧ length (fixed_lines songs) ≤ length files.
Proof.
  intros Hmain Hfiles songs. subst songs.
  destruct (main_Returned_inv _ _ _ _ Hmain Hfiles)
    as (r & n & st1 & Hloop & -> & Hloads).
  assert (load_lines (world st) files = []) as Hnone.
  { apply load_lines_nil. intros p [f Hf]%Hloads. unfold loaded. rewrite Hf. eauto. }
  split; [done|].
  apply fix_loop_Returned_spec in Hloop as (_ & -> & Hout).
  rewrite Hnone, app_nil_r in Hout. simpl in Hout |- *.
  rewrite fixed_lines_length. split.
  - by rewrite Hout, <- !app_assoc.
  - rewrite <- (length_fmap (loaded (world st)) files). apply length_filter.
Qed.

Lemma main_prints_found_and_fixed_witness :
  let run := main music (mkState shelf []) in
  run.1 = Returned tt
  ∧ get_all_files shelf music (Some mp3_filter)
    = Returned [absolute ["music"; "a.mp3"]; absolute ["music"; "b.mp3"]]
  ∧ stdout run.2 = [FinishedScanning 2; FixedMissingTag "A"; FinishedFixing 1].
Proof.
  intros run. split; [reflexivity|]. split; [reflexivity|].
  destruct (main_prints_found_and_fixed music (mkState shelf []) run.2
              [absolute ["music"; "a.mp3"]; absolute ["music"; "b.mp3"]])
    as (_ & Hout & _); [reflexivity..|].
  exact Hout.
Defined.

(** X15. When one of the paths found fails to load, [main] does not
    return.  It prints the line of the failed load and the number of paths
    found and then raises, in the fixer. *)
Theorem main_raises_when_a_load_failed dir_path st files path e :
  get_all_files (world st) dir_path (Some mp3_filter) = Returned files →
  path ∈ files →
  load_file (world st) path = Raised e →
  ∃ e' st',
    main dir_path st = (Raised e', st')
    ∧ except_line e path ∈ stdout st'
    ∧ FinishedScanning (length files) ∈ stdout st'.
Proof.
  intros Hfiles Hin Hload. rewrite main_run, Hfiles. simpl.
  destruct (fix_loop _ _ _) as [[[songs n]|e'] st2] eqn:Hloop.
  - assert (None ∈ loaded (world st) <$> files) as Hnone.
    { apply list_elem_of_fmap. exists path. unfold loaded. by rewrite Hload. }
    by destruct (fix_loop_all_Some _ _ _ _ _ _ Hloop Hnone).
  - exists e', st2. split; [done|].
    apply fix_loop_stdout in Hloop as [more ->]. simpl.
    rewrite !elem_of_app. split.
    + do 2 left. right. by apply elem_of_load_lines.
    + left. right. left.
Qed.

Lemma main_raises_when_a_load_failed_witness :
  get_all_files mislabelled music (Some mp3_filter)
  = Returned [absolute ["music"; "notes.mp3"]; absolute ["music"; "a.mp3"]]
  ∧ load_file mislabelled (absolute ["music"; "notes.mp3"]) = Raised not_audio
  ∧ ∃ e' st', main music (mkState mislabelled []) = (Raised e', st')
              ∧ NotMusicFile (absolute ["music"; "notes.mp3"]) ∈ stdout st'.
Proof.
  split; [reflexivity|]. split; [reflexivity|].
  destruct (main_raises_when_a_load_failed music (mkState mislabelled [])
              [absolute ["music"; "notes.mp3"]; absolute ["music"; "a.mp3"]]
              (absolute ["music"; "notes.mp3"]) not_audio)
    as (e' & st' & Hmain & Hline & _); [reflexivity|left|reflexivity|].
  exists e', st'. split; [exact Hmain|exact Hline].
Defined.

(** ** The filter of [main] *)

Section Suffix.

Lemma append_nil t : "" +:+ t = t.
Proof. reflexivity. Qed.

Lemma append_cons c s t : String c s +:+ t = String c (s +:+ t).
Proof. reflexivity. Qed.

Lemma rfind_dot_append s t :
  rfind_dot (s +:+ t)
  = match rfind_dot t with
    | Some i => Some (String.length s + i)
    | None => rfind_dot s
    end.
Proof.
  induction s as [|c s IH].
  - rewrite append_nil. by destruct (rfind_dot t).
  - rewrite append_cons. simpl. rewrite IH. by destruct (rfind_dot t).
Qed.

Lemma length_append s t :
  String.length (s +:+ t) = String.length s + String.length t.
Proof.
  induction s as [|c s IH]; [done|]. rewrite append_cons. simpl. by rewrite IH.
Qed.

Lemma substring_whole t : String.substring 0 (String.length t) t = t.
Proof. induction t as [|c t IH]; simpl; [done|]. by rewrite IH. Qed.

Lemma substring_after s t n :
  String.substring (String.length s) n (s +:+ t) = String.substring 0 n t.
Proof. induction s as [|c s IH]; [done|]. rewrite append_cons. apply IH. Qed.

Lemma substring_split s i :
  i ≤ String.length s →
  s = String.substring 0 i s +:+ String.substring i (String.length s - i) s.
Proof.
  revert i. induction s as [|c s IH]; intros i Hi; simpl in *.
  - by destruct i.
  - destruct i as [|i]; simpl.
    + by rewrite append_nil, substring_whole.
    + rewrite append_cons. f_equal. apply IH. lia.
Qed.

Lemma length_substring_prefix s i :
  i ≤ String.length s → String.length (String.substring 0 i s) = i.
Proof.
  revert i. induction s as [|c s IH]; intros i Hi; simpl in *.
  - destruct i; [done|lia].
  - destruct i as [|i]; simpl; [done|]. rewrite IH; [done|lia].
Qed.

End Suffix.

(** X16. The filter of [main] holds for a path exactly when its last
    component is a non-empty stem followed by [".mp3"]: a file named just
    [".mp3"] is not taken, and neither is one whose name ends otherwise,
    [".MP3"] included. *)
Theorem mp3_filter_names p :
  mp3_filter p = true ↔ ∃ stem, stem ≠ "" ∧ name p = stem +:+ ".mp3".
Proof.
  unfold mp3_filter. rewrite String.eqb_eq. unfold suffix, MP3. split.
  - destruct (rfind_dot (name p)) as [i|] eqn:Hdot; [|done].
    destruct (0 <? i) eqn:Hpos; [|done].
    destruct (i <? String.length (name p) - 1) eqn:Hlt; [|done]. simpl.
    apply Nat.ltb_lt in Hpos, Hlt. intros Hsub.
    exists (String.substring 0 i (name p)). split.
    + intros Hempty.
      assert (String.length (String.substring 0 i (name p)) = i) as Hlen
        by (apply length_substring_prefix; lia).
      rewrite Hempty in Hlen. simpl in Hlen. lia.
    + rewrite <- Hsub. apply substring_split. lia.
  - intros (stem & Hstem & ->).
    rewrite rfind_dot_append, length_append. simpl.
    assert (0 < String.length stem) as Hpos by (destruct stem; [done|simpl; lia]).
    rewrite (proj2 (Nat.ltb_lt 0 _)) by lia.
    rewrite (proj2 (Nat.ltb_lt _ _)) by lia. simpl.
    rewrite Nat.add_0_r.
    replace (String.length stem + 4 - String.length stem) with 4 by lia.
    by rewrite substring_after.
Qed.

(** ** The fixer and the discoverer *)

Section SameDirectories.

(** The walk depends on the world through [os.listdir] and [is_dir] only. *)
Lemma get_all_files_same_directories w w' file_filter dir_path :
  (∀ q, listdir w' q = listdir w q) →
  (∀ q, is_dir w' q = is_dir w q) →
  get_all_files w' dir_path file_filter = get_all_files w dir_path file_filter.
Proof.
  intros Hls Hdir. induction dir_path as [dir_path IH] using (get_all_files_ind w).
  rewrite (get_all_files_unfold w'), (get_all_files_unfold w), Hls.
  destruct (listdir w dir_path) as [names|e] eqn:Hnames; simpl; [|done].
  destruct (matching file_filter dir_path names) as [files|e]; simpl; [|done].
  assert (sub_directories w' dir_path names = sub_directories w dir_path names) as ->.
  { unfold sub_directories. f_equal. apply list_filter_iff. intros file.
    by rewrite Hdir. }
  apply extend_files_ext.
  intros sub_dir (file & -> & ? & ?)%elem_of_sub_directories. by eapply IH.
Qed.

End SameDirectories.

(** X17. A run of [fix_album_artist_tag], returning or raising, does not
    change what [get_all_files] finds: from any path and with any filter the
    walk gives after the run what it gave before. *)
Theorem fix_album_artist_tag_keeps_the_walk songs st file_filter dir_path :
  get_all_files (world (fix_album_artist_tag songs st).2) dir_path file_filter
  = get_all_files (world st) dir_path file_filter.
Proof.
  rewrite fix_album_artist_tag_world.
  destruct (fix_loop songs 0 st) as [r st1] eqn:Hloop.
  pose proof (fix_loop_writes_only _ _ _ _ _ Hloop) as Hw. simpl.
  apply get_all_files_same_directories; intros q.
  - by eapply writes_only_listdir.
  - by eapply writes_only_is_dir.
Qed.
